(** * Pythia: the web front-end of the Go source code oracle (main.go)

    A shallow embedding of [main.go] and of the pieces of the Go standard
    library it calls, with the properties of the command-line renderer,
    the program index, the start-up sequence and the query lock. *)

From Stdlib Require Import Ascii String ZArith Sorted.
From stdpp Require Import base option list sorting gmap strings.

Open Scope Z_scope.
Open Scope stdpp_scope.

(* ================================================================== *)
(** * Go's [strings] package *)

Module strings.

(** [strings.Join(elems, sep)]: the empty slice gives the empty string,
    a single element is returned as it is, otherwise the elements are
    written in order with [sep] before every element but the first. *)
Fixpoint Join_tail (elems : list string) (sep : string) : string :=
  match elems with
  | [] => ""
  | s :: rest => sep +:+ s +:+ Join_tail rest sep
  end.

Definition Join (elems : list string) (sep : string) : string :=
  match elems with
  | [] => ""
  | [s] => s
  | s :: rest => s +:+ Join_tail rest sep
  end.

(** One string per byte; [strings.Split] with an empty separator
    (Go cuts after each UTF-8 sequence, the same thing on ASCII). *)
Fixpoint explode (s : string) : list string :=
  match s with
  | EmptyString => []
  | String c rest => String c "" :: explode rest
  end.

(** The scanning loop of [genSplit]: [cur] is the field being read,
    [skip] the number of bytes of a matched separator still to pass. *)
Fixpoint genSplit (sep s : string) (skip : nat) (cur : string) : list string :=
  match s with
  | EmptyString => [cur]
  | String c rest =>
      match skip with
      | S k => genSplit sep rest k cur
      | O =>
          if String.prefix sep s
          then cur :: genSplit sep rest (String.length sep - 1) ""
          else genSplit sep rest 0 (cur +:+ String c "")
      end
  end.

(** [strings.Split(s, sep)]: all the fields of [s] between occurrences
    of [sep]; a string without separator is a single field. *)
Definition Split (s sep : string) : list string :=
  match sep with
  | EmptyString => explode s
  | _ => genSplit sep s 0 ""
  end.

End strings.

(* ================================================================== *)
(** * Go's [fmt] package, on string operands *)

Module fmt.

(** What [Sprintf] appends for operands no verb has consumed:
    [%!(EXTRA string=a, string=b)]. *)
Fixpoint extra_operands (a : list string) : string :=
  match a with
  | [] => ""
  | [x] => "string=" +:+ x
  | x :: rest => "string=" +:+ x +:+ ", " +:+ extra_operands rest
  end.

Definition extra (a : list string) : string :=
  match a with
  | [] => ""
  | _ => "%!(EXTRA " +:+ extra_operands a +:+ ")"
  end.

(** One directive [%c] applied to a string operand: [s] and [v] print
    the string itself, any other verb is reported as a bad verb. The
    verbs [q], [x], [X] and flags, widths and precisions are not part
    of this model; [main.go] uses none of them. *)
Definition verb (c : ascii) (operand : string) : string :=
  if (Ascii.eqb c "s" || Ascii.eqb c "v")%bool
  then operand
  else "%!" +:+ String c "(string=" +:+ operand +:+ ")".

(** [fmt.Sprintf(format, a...)] with string operands: literal bytes are
    copied, [%%] prints a percent sign, a verb consumes the next
    operand ([%!c(MISSING)] when there is none), and operands left over
    at the end are listed. *)
Fixpoint Sprintf (format : string) (a : list string) : string :=
  match format with
  | EmptyString => extra a
  | String c rest =>
      if Ascii.eqb c "%" then
        match rest with
        | EmptyString => "%!(NOVERB)" +:+ extra a
        | String v rest' =>
            if Ascii.eqb v "%" then String "%" (Sprintf rest' a)
            else
              match a with
              | [] => "%!" +:+ String v "(MISSING)" +:+ Sprintf rest' []
              | x :: a' => verb v x +:+ Sprintf rest' a'
              end
        end
      else String c (Sprintf rest a)
  end.

End fmt.

(* ================================================================== *)
(** * The command-line renderer *)

(** [cmdLine] returns what the command line would look like if the oracle
    was invoked via command line with the given arguments. *)
Definition cmdLine (mode pos format : string) (scope : list string) : string :=
  fmt.Sprintf "oracle -pos=%s -format=%s %s %s"
    [pos; format; mode; strings.Join scope " "].

(** The words of the renderer's contract, "the scope package list joined
    by spaces": each path but the first is preceded by one space. Compared
    with [strings.Join] below. *)
Fixpoint joined_by_spaces (scope : list string) : string :=
  match scope with
  | [] => ""
  | [p] => p
  | p :: rest => p +:+ " " +:+ joined_by_spaces rest
  end.

(** The last byte of a string, if it has one. *)
Fixpoint last_byte (s : string) : option ascii :=
  match s with
  | EmptyString => None
  | String c EmptyString => Some c
  | String _ rest => last_byte rest
  end.

(* ================================================================== *)
(** * Go's [sort] package *)

Module sort.

(** [sort.Interface]. Indexing a slice out of range panics: [Less] and
    [Swap] give [None] there. *)
Class Interface (T : Type) := {
  Len : T → nat;
  Less : T → nat → nat → option bool;
  Swap : T → nat → nat → option T
}.

Section insertion.
Context {T : Type} `{Interface T}.

(** The inner loop of [insertionSort]:
    [for j := i; j > a && data.Less(j, j-1); j-- { data.Swap(j, j-1) }]. *)
Fixpoint sift (data : T) (a j : nat) : option T :=
  match j with
  | O => Some data
  | S j' =>
      if (a <? j)%nat then
        lt ← Less data j j';
        if lt : bool then data' ← Swap data j j'; sift data' a j'
        else Some data
      else Some data
  end.

(** The outer loop, [for i := a + 1; i < b; i++], with [n] the number
    of rounds still to run. *)
Fixpoint insertionLoop (data : T) (a i n : nat) : option T :=
  match n with
  | O => Some data
  | S n' => data' ← sift data a i; insertionLoop data' a (S i) n'
  end.

Definition insertionSort (data : T) (a b : nat) : option T :=
  insertionLoop data a (S a) (b - S a).
End insertion.

(** A slice whose elements are compared by [less]; both [byPath] and
    [sort.StringSlice] have this shape. [p[i], p[j] = p[j], p[i]] reads
    both elements, then writes them. *)
Definition slice {A : Type} (less : A → A → bool) : Interface (list A) := {|
  Len p := length p;
  Less p i j := x ← p !! i; y ← p !! j; Some (less x y);
  Swap p i j := x ← p !! i; y ← p !! j; Some (<[j:=x]> (<[i:=y]> p))
|}.

(** [sort.StringSlice] attaches the methods of [Interface] to [[]string],
    sorting in increasing order: [Less(i, j)] is [p[i] < p[j]]. *)
Definition StringSlice := list string.

#[export] Instance StringSlice_Interface : Interface StringSlice := {|
  Len p := length p;
  Less p i j := x ← p !! i; y ← p !! j; Some (String.ltb x y);
  Swap p i j := x ← p !! i; y ← p !! j; Some (<[j:=x]> (<[i:=y]> p))
|}.

(** What [sort.Sort] asks of [Less]: a strict weak ordering. *)
Record StrictWeakOrder {A : Type} (less : A → A → bool) : Prop := {
  less_irrefl : ∀ x, less x x = false;
  less_trans : ∀ x y z, less x y = true → less y z = true → less x z = true;
  less_incomparable :
    ∀ x y z, less x y = false → less y z = false → less x z = false
}.

(** [data] is in ascending order as determined by [less]: no element is
    less than the one before it. *)
Definition ascending {A : Type} (less : A → A → bool) (data : list A) : Prop :=
  Sorted (λ x y, less y x = false) data.

End sort.

(** What Go leaves open and this program runs into: the order in which a
    [for range] statement visits the entries of a map, and the way
    [sort.Sort] arranges the data (it is not stable, and its algorithm,
    insertion sort on short ranges, quicksort and heapsort on long ones, is
    not part of its contract). An implementation fixes both. *)
Class GoImpl := {
  range_map : ∀ {V : Type}, gmap positive V → list (positive * V);
  sort_Sort : ∀ {T : Type}, sort.Interface T → T → T
}.

(** What the language and the library promise of them: [for range] visits
    every entry of the map once, and [sort.Sort] only swaps elements and
    leaves the data in ascending order when [Less] is a strict weak
    ordering. *)
Class Lawful (G : GoImpl) : Prop := {
  range_map_visits_all :
    ∀ (V : Type) (m : gmap positive V), range_map m ≡ₚ map_to_list m;
  sort_Sort_permutes :
    ∀ (A : Type) (less : A → A → bool) (data : list A),
      sort_Sort (sort.slice less) data ≡ₚ data;
  sort_Sort_ascending :
    ∀ (A : Type) (less : A → A → bool) (data : list A),
      sort.StrictWeakOrder less →
      sort.ascending less (sort_Sort (sort.slice less) data)
}.

(** [sort.Sort] as it runs on a range of at most seven elements, where
    [quickSort] does no more than
    [if b-a > 1 { insertionSort(data, a, b) }]. A panic of the loop would
    leave [data] as it is; on slices there is none. *)
Definition Sort_short {T : Type} (I : sort.Interface T) (data : T) : T :=
  let n := sort.Len data in
  if (1 <? n - 0)%nat then default data (sort.insertionSort data 0 n) else data.

(** Two implementations: maps visited in the order of [map_to_list], and
    in the opposite order. *)
Definition forward_impl : GoImpl := {|
  range_map V m := map_to_list m;
  sort_Sort T I := Sort_short I
|}.

Definition backward_impl : GoImpl := {|
  range_map V m := reverse (map_to_list m);
  sort_Sort T I := Sort_short I
|}.

(** [sort.Strings(a)] is [Sort(StringSlice(a))]. *)
Definition sort_Strings `{GoImpl} (a : list string) : list string :=
  sort_Sort sort.StringSlice_Interface a.

(* ================================================================== *)
(** * The program snapshot *)

(** [types.Package], as far as [main.go] reads it. *)
Record Package := { Path : string; Name : string }.

(** [importer.PackageInfo]: the package and whether it was loaded from
    source on request of an import. *)
Record PackageInfo := { Pkg : Package; Importable : bool }.

(** [token.File] and [token.FileSet]. *)
Record File := { File_Name : string; File_Size : Z }.
Record FileSet := { FileSet_files : list File }.

(** [importer.Program]: the file set and [AllPackages], a map keyed by the
    address of each [types.Package]. *)
Record Program := {
  Fset : FileSet;
  AllPackages : gmap positive PackageInfo
}.

(** [FileSet.Iterate] calls [f] for the files of the set in the order they
    were added until [f] returns [false]; [f] works on a state [S]. *)
Fixpoint Iterate_files {S : Type} (files : list File)
    (f : File → S → S * bool) (s : S) : S :=
  match files with
  | [] => s
  | file :: rest =>
      let '(s', continue) := f file s in
      if continue : bool then Iterate_files rest f s' else s'
  end.

Definition Iterate {S : Type} (fs : FileSet) (f : File → S → S * bool) (s : S) : S :=
  Iterate_files (FileSet_files fs) f s.

(* ================================================================== *)
(** * The program index *)

(** [byPath] makes a slice of package infos sortable by package path. *)
Definition byPath := list PackageInfo.

#[export] Instance byPath_Interface : sort.Interface byPath := {|
  sort.Len p := length p;
  sort.Less p i j :=
    x ← p !! i; y ← p !! j; Some (String.ltb (Path (Pkg x)) (Path (Pkg y)));
  sort.Swap p i j := x ← p !! i; y ← p !! j; Some (<[j:=x]> (<[i:=y]> p))
|}.

(** [sortedPackages] returns all packages of a program, sorted by package
    path. *)
Definition sortedPackages `{GoImpl} (iprog : Program) : list PackageInfo :=
  let pkgs : list PackageInfo := [] in
  let pkgs :=
    foldl (λ pkgs kv, pkgs ++ [kv.2]) pkgs (range_map (AllPackages iprog)) in
  sort_Sort byPath_Interface pkgs.

(** [scopeFiles] returns a new slice containing the full paths of all the
    files imported by an importer, sorted in increasing order. *)
Definition scopeFiles `{GoImpl} (iprog : Program) : list string :=
  let files : list string := [] in
  let files :=
    Iterate (Fset iprog) (λ f files, (files ++ [File_Name f], true)) files in
  sort_Strings files.

(** The orders the index is stated in: by key, in the byte order of
    strings, non-strict and strict. *)
Definition key_le {A : Type} (key : A → string) (x y : A) : Prop :=
  String.leb (key x) (key y) = true.

Definition key_lt {A : Type} (key : A → string) (x y : A) : Prop :=
  String.ltb (key x) (key y) = true.

Definition path_of (p : PackageInfo) : string := Path (Pkg p).

(** The import paths of the packages of a snapshot, one per entry of
    [AllPackages]. *)
Definition package_paths (iprog : Program) : list string :=
  path_of <$> (map_to_list (AllPackages iprog)).*2.

(** Snapshots to run the index on: two packages with one path, and three
    packages and three files with different names. *)
Definition twins : Program := {|
  Fset := {| FileSet_files := [] |};
  AllPackages :=
    <[1%positive := {| Pkg := {| Path := "main"; Name := "main" |};
                      Importable := true |}]>
    (<[2%positive := {| Pkg := {| Path := "main"; Name := "main" |};
                       Importable := false |}]> ∅)
|}.

Definition sample : Program := {|
  Fset := {| FileSet_files :=
    [ {| File_Name := "/go/src/image/png/writer.go"; File_Size := 4200 |};
      {| File_Name := "/go/src/image/png/reader.go"; File_Size := 9100 |};
      {| File_Name := "/go/src/image/image.go"; File_Size := 5000 |} ] |};
  AllPackages :=
    <[1%positive := {| Pkg := {| Path := "image/png"; Name := "png" |};
                      Importable := true |}]>
    (<[2%positive := {| Pkg := {| Path := "image"; Name := "image" |};
                       Importable := true |}]>
    (<[3%positive := {| Pkg := {| Path := "bufio"; Name := "bufio" |};
                       Importable := true |}]> ∅))
|}.

Definition empty_snapshot : Program :=
  {| Fset := {| FileSet_files := [] |}; AllPackages := ∅ |}.

(* ================================================================== *)
(** * Start-up: [init] and [main] *)

(** The flags of the command line with their defaults. *)
Record Flags := {
  httpAddr : string;
  verbose : bool;
  open : bool;
  tags : string
}.

Definition defaultFlags : Flags :=
  {| httpAddr := ":8080"; verbose := false; open := true; tags := "" |}.

(** What [flag.CommandLine.Parse(os.Args[1:])] gives under
    [flag.ContinueOnError]: the flag values and the remaining arguments, or
    [flag.ErrHelp], or another error. *)
Inductive ParseResult :=
  | ParseOk (fl : Flags) (rest : list string)
  | ParseErrHelp
  | ParseError (msg : string).

(** [build.Context], as far as tags are concerned. *)
Record build_Context := {
  GOOS : string;
  GOARCH : string;
  BuildTags : list string
}.

(** The loop of the tag matcher of [go/build] over the build tags:
    [for _, tag := range ctxt.BuildTags { if tag == name { return true } }]. *)
Definition hasBuildTag (ctxt : build_Context) (name : string) : bool :=
  existsb (String.eqb name) (BuildTags ctxt).

(** [importer.Config] *)
Record Config := { Build : build_Context; SourceImports : bool }.

(** The surroundings of the process: its environment and the answers of
    the collaborators [main] calls (errors are their messages). *)
Record World := {
  os_Environ : gmap string string;
  runtime_NumCPU : Z;
  runtime_GOOS : string;
  flag_Parse : ParseResult;
  flag_Defaults : string;
  build_Default : build_Context;
  importer_FromArgsUsage : string;
  conf_FromArgs : Config → list string → option string;
  conf_Load : Config → list string → Program + string;
  oracle_New : Program → option string;
  net_Listen : string → option string;
  cmd_Start : list string → bool;
  srv_Serve : option string
}.

(** [os.Getenv] returns the value of the variable, which is empty when the
    variable is not present. *)
Definition os_Getenv (w : World) (key : string) : string :=
  match os_Environ w !! key with
  | Some value => value
  | None => ""
  end.

(** [runtime.GOMAXPROCS(n)] sets the number of CPUs that can execute at
    once; for [n < 1] it does not change the setting. *)
Definition runtime_GOMAXPROCS (n : Z) (setting : Z) : Z :=
  if n <? 1 then setting else n.

(** [init], on the runtime's [GOMAXPROCS] setting. *)
Definition init (w : World) (setting : Z) : Z :=
  if String.eqb (os_Getenv w "GOMAXPROCS") "" then
    let n := runtime_NumCPU w in
    let n := if n <? 4 then 4 else n in
    runtime_GOMAXPROCS n setting
  else setting.

(** What the process does that can be seen from outside. *)
Inductive Event :=
  | Stdout (s : string)
  | Stderr (s : string)
  | FromArgs (conf : Config) (args : list string)
  | Load (conf : Config)
  | NewOracle
  | HandleFunc (pattern : string)
  | Handle (pattern : string)
  | Listen (addr : string)
  | StartCommand (argv : list string)
  | Serve
  | Exit (code : Z).

(** A piece of the process: the events so far and either a value or
    nothing, when [os.Exit] has been called. [srv.Serve] returns only with
    an error: a run of [main] that ends with a value is a process that
    keeps serving. *)
Definition Proc (A : Type) : Type := list Event * option A.

#[export] Instance Proc_ret : MRet Proc := λ A x, ([], Some x).

#[export] Instance Proc_bind : MBind Proc := λ A B f m,
  match m.2 with
  | Some x => (m.1 ++ (f x).1, (f x).2)
  | None => (m.1, None)
  end.

Definition emit (e : Event) : Proc unit := ([e], Some tt).
Definition os_Exit {A : Type} (code : Z) : Proc A := ([Exit code], None).

Definition useHelp : string :=
  "Run 'pythia -help' for more information." +:+ String "010" "".

Definition newline : string := String "010" "".

Definition helpMessage (w : World) : string :=
  "Web frontend for the Go source code oracle." +:+ newline +:+
  "Usage: pythia [<flag> ...] <args> ..." +:+ newline +:+
  newline +:+
  "The -http flag specifies the HTTP service address (e.g., ':6060')." +:+ newline +:+
  newline +:+
  "The -tags flag specifies comma separated tags to use when importing" +:+ newline +:+
  "code (e.g., 'foo,!darwin')." +:+ newline +:+
  newline +:+
  "The -open flag determines, whether the application should try to" +:+ newline +:+
  "open the browser. It is set to 'true' by default. If set to 'false'" +:+ newline +:+
  "the browser will not be launched." +:+ newline +:+
  newline +:+
  "The -v flag enables verbose mode, in which every incoming query" +:+ newline +:+
  "to the oracle is logged to the standard output." +:+ newline +:+
  newline +:+
  "Examples:" +:+ newline +:+
  newline +:+
  "Start pythia with the scope of package oracle:" +:+ newline +:+
  "% pythia code.google.com/p/go.tools/cmd/oracle" +:+ newline +:+
  newline +:+
  "Start pythia with the scope of package image/png on port 8081," +:+ newline +:+
  "but don't open the browser:" +:+ newline +:+
  "% pythia -http=:8081 -open=false image/png" +:+ newline +:+
  importer_FromArgsUsage w.

(** [flag.Usage], as [main] sets it. *)
Definition flag_Usage : Proc unit := emit (Stderr useHelp).

(** [exitError] prints the error on standard error and exits with 1. *)
Definition exitError {A : Type} (err : string) : Proc A :=
  emit (Stderr (err +:+ newline));; os_Exit 1.

Definition registerHandlers : Proc unit :=
  emit (HandleFunc "/");;
  emit (HandleFunc "/source");;
  emit (HandleFunc "/file");;
  emit (HandleFunc "/query");;
  let staticPrefix := "/static/" in
  emit (Handle staticPrefix).

(** [startBrowser] tries to open the URL in a browser and reports whether
    it succeeds. *)
Definition startBrowser (w : World) (url : string) : Proc bool :=
  let args :=
    if String.eqb (runtime_GOOS w) "darwin" then ["open"]
    else if String.eqb (runtime_GOOS w) "windows" then ["cmd"; "/c"; "start"]
    else ["xdg-open"] in
  let argv := args ++ [url] in
  emit (StartCommand argv);;
  mret (cmd_Start w argv).

(** The part of [main] that parses the command line. On an error the
    [flag] package has printed the error and called [flag.Usage]; for
    [-help] it has only called [flag.Usage]. *)
Definition parseArgs (w : World) : Proc (Flags * list string) :=
  match flag_Parse w with
  | ParseOk fl rest => mret (fl, rest)
  | ParseErrHelp =>
      flag_Usage;;
      emit (Stdout (helpMessage w +:+ newline));;
      emit (Stdout ("Flags:" +:+ newline));;
      emit (Stderr (flag_Defaults w));;
      os_Exit 2
  | ParseError msg =>
      emit (Stderr (msg +:+ newline));;
      flag_Usage;;
      os_Exit 2
  end.

(** The build settings [main] loads with. *)
Definition loadSettings (w : World) (fl : Flags) : build_Context :=
  let settings := build_Default w in
  {| GOOS := GOOS settings; GOARCH := GOARCH settings;
     BuildTags := strings.Split (tags fl) "," |}.

(** The state [main] leaves in the package variables. *)
Record Globals := {
  args : list string;
  files : list string;
  packages : list PackageInfo;
  iprog : Program
}.

Definition main `{GoImpl} (w : World) : Proc Globals :=
  '(fl, args) ← parseArgs w;
  (if decide (length args = 0%nat) then
     emit (Stderr ("Error: no package arguments." +:+ newline +:+ useHelp));;
     os_Exit 2
   else mret tt);;
  let settings := loadSettings w fl in
  let conf := {| Build := settings; SourceImports := true |} in
  emit (FromArgs conf args);;
  (match conf_FromArgs w conf args with
   | Some err => exitError err
   | None => mret tt
   end);;
  emit (Load conf);;
  iprog ← (match conf_Load w conf args with
           | inr err => exitError err
           | inl iprog => mret iprog
           end);
  emit NewOracle;;
  (match oracle_New w iprog with
   | Some err => exitError err
   | None => mret tt
   end);;
  let files := scopeFiles iprog in
  let packages := sortedPackages iprog in
  registerHandlers;;
  emit (Listen (httpAddr fl));;
  (match net_Listen w (httpAddr fl) with
   | Some err => exitError err
   | None => mret tt
   end);;
  (if open fl then
     let url := fmt.Sprintf "http://localhost%s/" [httpAddr fl] in
     started ← startBrowser w url;
     if started : bool then mret tt else emit (Stdout (url +:+ newline))
   else mret tt);;
  emit Serve;;
  match srv_Serve w with
  | Some err => exitError err
  | None =>
      mret {| args := args; files := files; packages := packages; iprog := iprog |}
  end.

(** What a run shows: the exit code, if the process has exited, the text
    written to standard error, and whether a listener was opened or the
    loader called. *)
Definition exit_code {A : Type} (p : Proc A) : option Z :=
  match last p.1 with
  | Some (Exit code) => Some code
  | _ => None
  end.

Definition stderr_text {A : Type} (p : Proc A) : string :=
  foldr (λ e acc, match e with Stderr s => s +:+ acc | _ => acc end) "" p.1.

Definition is_Listen (e : Event) : bool :=
  match e with Listen _ => true | _ => false end.

Definition is_loading (e : Event) : bool :=
  match e with FromArgs _ _ | Load _ | NewOracle => true | _ => false end.

Definition listener_opened {A : Type} (p : Proc A) : bool := existsb is_Listen p.1.
Definition loading_attempted {A : Type} (p : Proc A) : bool := existsb is_loading p.1.

(** The configuration [main] hands to the loader. *)
Definition loadConfig (w : World) (fl : Flags) : Config :=
  {| Build := loadSettings w fl; SourceImports := true |}.

(** The ways the start-up can fail before the index is built, in the
    order [main] runs them: resolving the arguments, loading and
    type-checking, making the oracle. *)
Definition startup_fails (w : World) (fl : Flags) (args : list string)
    (err : string) : Prop :=
  conf_FromArgs w (loadConfig w fl) args = Some err ∨
  (conf_FromArgs w (loadConfig w fl) args = None ∧
   conf_Load w (loadConfig w fl) args = inr err) ∨
  (conf_FromArgs w (loadConfig w fl) args = None ∧
   ∃ iprog, conf_Load w (loadConfig w fl) args = inl iprog ∧
            oracle_New w iprog = Some err).

(** A machine to run the start-up on: two CPUs, Linux, a loader that
    accepts everything, and flags and environment to choose. *)
Definition machine (env : gmap string string) (parsed : ParseResult) : World := {|
  os_Environ := env;
  runtime_NumCPU := 2;
  runtime_GOOS := "linux";
  flag_Parse := parsed;
  flag_Defaults := "";
  build_Default := {| GOOS := "linux"; GOARCH := "amd64"; BuildTags := [] |};
  importer_FromArgsUsage := "";
  conf_FromArgs _ _ := None;
  conf_Load _ _ := inl sample;
  oracle_New _ := None;
  net_Listen _ := None;
  cmd_Start _ := true;
  srv_Serve := None
|}.

(** The same machine with a loader that fails to type-check. *)
Definition broken_load (w : World) (err : string) : World := {|
  os_Environ := os_Environ w;
  runtime_NumCPU := runtime_NumCPU w;
  runtime_GOOS := runtime_GOOS w;
  flag_Parse := flag_Parse w;
  flag_Defaults := flag_Defaults w;
  build_Default := build_Default w;
  importer_FromArgsUsage := importer_FromArgsUsage w;
  conf_FromArgs := conf_FromArgs w;
  conf_Load _ _ := inr err;
  oracle_New := oracle_New w;
  net_Listen := net_Listen w;
  cmd_Start := cmd_Start w;
  srv_Serve := srv_Serve w
|}.

(** Further observations of a run: the text written to standard output
    and the commands started. *)
Definition stdout_text {A : Type} (p : Proc A) : string :=
  foldr (λ e acc, match e with Stdout s => s +:+ acc | _ => acc end) "" p.1.

Definition commands_started {A : Type} (p : Proc A) : list (list string) :=
  omap (λ e, match e with StartCommand argv => Some argv | _ => None end) p.1.

(** The start-up up to the index went through: the flags parsed and left
    the package arguments [args], which the loader resolved and loaded as
    [iprog], and the oracle was made. *)
Definition setup_succeeds (w : World) (fl : Flags) (args : list string)
    (iprog : Program) : Prop :=
  flag_Parse w = ParseOk fl args ∧ args ≠ [] ∧
  conf_FromArgs w (loadConfig w fl) args = None ∧
  conf_Load w (loadConfig w fl) args = inl iprog ∧
  oracle_New w iprog = None.

(** What [main] has done when it opens the listener. *)
Definition setup_events (w : World) (fl : Flags) (args : list string) : list Event :=
  [ FromArgs (loadConfig w fl) args; Load (loadConfig w fl); NewOracle;
    HandleFunc "/"; HandleFunc "/source"; HandleFunc "/file";
    HandleFunc "/query"; Handle "/static/";
    Listen (httpAddr fl) ].

(** A host to run the whole of [main] on: the loader accepts everything,
    and the listener, the browser command and the server answer as given. *)
Definition host (parsed : ParseResult) (listen : option string) (start : bool)
    (serve : option string) : World := {|
  os_Environ := ∅;
  runtime_NumCPU := 8;
  runtime_GOOS := "darwin";
  flag_Parse := parsed;
  flag_Defaults := "";
  build_Default := {| GOOS := "darwin"; GOARCH := "arm64"; BuildTags := [] |};
  importer_FromArgsUsage := "";
  conf_FromArgs _ _ := None;
  conf_Load _ _ := inl sample;
  oracle_New _ := None;
  net_Listen _ := listen;
  cmd_Start _ := start;
  srv_Serve := serve
|}.

(** Flags that keep the browser closed. *)
Definition quietFlags : Flags :=
  {| httpAddr := ":8081"; verbose := false; open := false; tags := "foo,!darwin" |}.

(** The number of bytes [c] in [s]. *)
Fixpoint count_byte (c : ascii) (s : string) : nat :=
  match s with
  | EmptyString => 0%nat
  | String b rest => ((if Ascii.eqb b c then 1 else 0) + count_byte c rest)%nat
  end.

(** The names of the files of a snapshot, in the order of the file set. *)
Definition file_names (iprog : Program) : list string :=
  File_Name <$> FileSet_files (Fset iprog).

(** A snapshot with one more package, and [sample] with its files in the
    opposite order and with its packages under other keys. *)
Definition with_package (iprog : Program) (k : positive) (p : PackageInfo) : Program :=
  {| Fset := Fset iprog; AllPackages := <[k:=p]> (AllPackages iprog) |}.

Definition sample_reversed : Program := {|
  Fset := {| FileSet_files := reverse (FileSet_files (Fset sample)) |};
  AllPackages := AllPackages sample
|}.

Definition sample_rekeyed : Program := {|
  Fset := Fset sample;
  AllPackages :=
    <[40%positive := {| Pkg := {| Path := "bufio"; Name := "bufio" |};
                       Importable := true |}]>
    (<[50%positive := {| Pkg := {| Path := "image/png"; Name := "png" |};
                        Importable := true |}]>
    (<[60%positive := {| Pkg := {| Path := "image"; Name := "image" |};
                        Importable := true |}]> ∅))
|}.

(* ================================================================== *)
(** * The query coordinator *)

Module Coordinator.

(** Modelled from the spec: the handler of [/query], which takes [mutex]
    around the call of the oracle, is not in [main.go] (only the
    declaration of [mutex] is). A request is validated without touching
    the guard and fails fast when invalid; the guard is acquired
    immediately before the engine call and released immediately after
    it, whether the engine succeeded or failed. *)
Inductive Stage :=
  | Validating
  | Rejected
  | Acquiring
  | InEngine
  | Releasing (ok : bool)
  | Answered (ok : bool).

(** Modelled from the spec: the single guard ([sync.Mutex]) and the
    requests being handled, each on its own goroutine. *)
Record State := { locked : bool; requests : list Stage }.

Definition initial : State := {| locked := false; requests := [] |}.

(** Modelled from the spec: one step of one goroutine; the scheduler is
    free to pick any. *)
Inductive Action :=
  | Arrive
  | Validate (i : nat) (valid : bool)
  | Lock (i : nat)
  | EngineReturn (i : nat) (ok : bool)
  | Unlock (i : nat).

Definition set_stage (s : State) (i : nat) (st : Stage) (l : bool) : State :=
  {| locked := l; requests := <[i:=st]> (requests s) |}.

(** Modelled from the spec: the steps of a request. [step s a] is [None]
    when the goroutine cannot take this step in [s]: [Lock] on a locked
    mutex blocks. *)
Definition step (s : State) (a : Action) : option State :=
  match a with
  | Arrive =>
      Some {| locked := locked s; requests := requests s ++ [Validating] |}
  | Validate i valid =>
      match requests s !! i with
      | Some Validating =>
          Some (set_stage s i (if valid then Acquiring else Rejected) (locked s))
      | _ => None
      end
  | Lock i =>
      match requests s !! i with
      | Some Acquiring =>
          if locked s then None else Some (set_stage s i InEngine true)
      | _ => None
      end
  | EngineReturn i ok =>
      match requests s !! i with
      | Some InEngine => Some (set_stage s i (Releasing ok) (locked s))
      | _ => None
      end
  | Unlock i =>
      match requests s !! i with
      | Some (Releasing ok) => Some (set_stage s i (Answered ok) false)
      | _ => None
      end
  end.

(** A schedule: the steps in the order they happen. *)
Fixpoint run (s : State) (schedule : list Action) : option State :=
  match schedule with
  | [] => Some s
  | a :: rest => s' ← step s a; run s' rest
  end.

Definition in_engine (s : State) (i : nat) : Prop :=
  requests s !! i = Some InEngine.

Definition holds_guard (st : Stage) : bool :=
  match st with InEngine | Releasing _ => true | _ => false end.

(** The guard is held by at most one request, by none when it is free,
    and by one when it is locked. *)
Definition exclusive (s : State) : Prop :=
  (∀ i j st st',
      requests s !! i = Some st → requests s !! j = Some st' →
      holds_guard st = true → holds_guard st' = true → i = j) ∧
  (locked s = false →
   ∀ i st, requests s !! i = Some st → holds_guard st = false) ∧
  (locked s = true →
   ∃ i st, requests s !! i = Some st ∧ holds_guard st = true).

End Coordinator.

(* ================================================================== *)
(** * Properties of the command-line renderer *)

Lemma string_app_nil_r (s : string) : s +:+ "" = s.
Proof.
  induction s as [|c s IH]; [done |].
  change (String c (s +:+ "") = String c s). by rewrite IH.
Qed.

Lemma string_app_assoc (s t u : string) : (s +:+ t) +:+ u = s +:+ t +:+ u.
Proof.
  induction s as [|c s IH]; [done |].
  change (String c ((s +:+ t) +:+ u) = String c (s +:+ t +:+ u)). by rewrite IH.
Qed.

Lemma string_app_nonempty_r (s t : string) : t ≠ "" → s +:+ t ≠ "".
Proof.
  intros Ht. destruct s as [|c s]; [exact Ht |].
  change (String c (s +:+ t) ≠ ""). discriminate.
Qed.

Lemma Join_tail_spaced (p : string) (rest : list string) :
  p +:+ strings.Join_tail rest " " = joined_by_spaces (p :: rest).
Proof.
  revert p; induction rest as [|q rest IH]; intros p.
  - apply string_app_nil_r.
  - change (p +:+ " " +:+ (q +:+ strings.Join_tail rest " ")
            = p +:+ " " +:+ joined_by_spaces (q :: rest)).
    by rewrite IH.
Qed.

Lemma Join_joined_by_spaces (scope : list string) :
  strings.Join scope " " = joined_by_spaces scope.
Proof.
  destruct scope as [|p [|q rest]]; [done | done |].
  apply (Join_tail_spaced p (q :: rest)).
Qed.

Lemma cmdLine_unfold (mode pos format : string) (scope : list string) :
  cmdLine mode pos format scope
  = "oracle -pos=" +:+ pos +:+ " -format=" +:+ format +:+ " " +:+ mode
      +:+ " " +:+ strings.Join scope " ".
Proof.
  transitivity ("oracle -pos=" +:+ pos +:+ " -format=" +:+ format +:+ " "
                  +:+ mode +:+ " " +:+ (strings.Join scope " " +:+ "")).
  - reflexivity.
  - by rewrite string_app_nil_r.
Qed.

(** C1: for every mode, position, format and scope, [cmdLine] is exactly
    ["oracle -pos="], the position, [" -format="], the format, a space, the
    mode, a space and the scope paths joined by single spaces, in this
    order; for ["callers"], ["foo.go:10:2"], ["json"] and one package
    ["example.com/pkg"] it is
    ["oracle -pos=foo.go:10:2 -format=json callers example.com/pkg"]. *)
Theorem cmdLine_fixed_order :
  (∀ (mode pos format : string) (scope : list string),
      cmdLine mode pos format scope
      = "oracle -pos=" +:+ pos +:+ " -format=" +:+ format +:+ " " +:+ mode
          +:+ " " +:+ joined_by_spaces scope) ∧
  cmdLine "callers" "foo.go:10:2" "json" ["example.com/pkg"]
  = "oracle -pos=foo.go:10:2 -format=json callers example.com/pkg".
Proof.
  split; [| reflexivity].
  intros mode pos format scope.
  by rewrite cmdLine_unfold, Join_joined_by_spaces.
Qed.

Lemma last_byte_app_singleton (s : string) (c : ascii) :
  last_byte (s +:+ String c "") = Some c.
Proof.
  induction s as [|d s IH]; [done |].
  change (last_byte (String d (s +:+ String c "")) = Some c).
  destruct s; [done |]. exact IH.
Qed.

(** C9: with an empty scope, [cmdLine] is the text up to the mode followed
    by one space; the string ends with that space. *)
Theorem cmdLine_empty_scope_trailing_space (mode pos format : string) :
  cmdLine mode pos format []
  = ("oracle -pos=" +:+ pos +:+ " -format=" +:+ format +:+ " " +:+ mode) +:+ " "
  ∧ last_byte (cmdLine mode pos format []) = Some " "%char.
Proof.
  assert (cmdLine mode pos format []
          = ("oracle -pos=" +:+ pos +:+ " -format=" +:+ format +:+ " " +:+ mode)
              +:+ " ") as E.
  { rewrite cmdLine_unfold, !string_app_assoc. reflexivity. }
  split; [exact E |].
  rewrite E. apply last_byte_app_singleton.
Qed.

(* ================================================================== *)
(** * The order of strings *)

(** Go compares strings byte by byte; [String.ltb] is this order. *)
Lemma ltb_negb_leb (x y : string) : String.ltb x y = negb (String.leb y x).
Proof.
  unfold String.ltb, String.leb. rewrite (String.compare_antisym x y).
  by destruct (String.compare y x).
Qed.

Lemma leb_refl (x : string) : String.leb x x = true.
Proof. apply Is_true_true. apply (reflexivity (R:=String.le)). Qed.

Lemma leb_trans (x y z : string) :
  String.leb x y = true → String.leb y z = true → String.leb x z = true.
Proof.
  intros Hxy%Is_true_true Hyz%Is_true_true. apply Is_true_true.
  exact (transitivity (R:=String.le) Hxy Hyz).
Qed.

Lemma ltb_leb (x y : string) : String.ltb x y = true → String.leb x y = true.
Proof.
  rewrite ltb_negb_leb. intros Hlt%negb_true_iff.
  destruct (String.leb_total x y) as [H|H]; [done | congruence].
Qed.

Lemma ltb_irrefl (x : string) : String.ltb x x = false.
Proof. by rewrite ltb_negb_leb, leb_refl. Qed.

Lemma ltb_of_leb_ne (x y : string) :
  String.leb x y = true → x ≠ y → String.ltb x y = true.
Proof.
  intros Hle Hne. rewrite ltb_negb_leb. apply negb_true_iff.
  destruct (String.leb y x) eqn:Hyx; [| done].
  destruct Hne. by apply String.leb_antisym.
Qed.

Lemma ltb_ne (x y : string) : String.ltb x y = true → x ≠ y.
Proof. intros Hlt ->. by rewrite ltb_irrefl in Hlt. Qed.

(** Comparing by a string key is a strict weak ordering. *)
Lemma StrictWeakOrder_key {A : Type} (key : A → string) :
  sort.StrictWeakOrder (λ x y, String.ltb (key x) (key y)).
Proof.
  split.
  - intros x. apply ltb_irrefl.
  - intros x y z Hxy Hyz. apply ltb_of_leb_ne.
    + eapply leb_trans; by apply ltb_leb.
    + intros E. rewrite E in Hxy.
      pose proof (ltb_leb _ _ Hxy) as H1. pose proof (ltb_leb _ _ Hyz) as H2.
      apply (ltb_ne _ _ Hyz). by apply String.leb_antisym.
  - intros x y z. rewrite !ltb_negb_leb, !negb_false_iff.
    intros Hyx Hzy. by eapply leb_trans.
Qed.

(* ================================================================== *)
(** * Sorted sequences *)

Lemma Sorted_weaken {A : Type} (R R' : relation A) (l : list A) :
  (∀ x y, R x y → R' x y) → Sorted R l → Sorted R' l.
Proof.
  intros HR. induction 1 as [|x l Hl IH Hhd]; constructor; [done |].
  destruct Hhd; constructor; auto.
Qed.

Section keyed.
Context {A : Type} (key : A → string).

#[local] Instance key_le_trans : Transitive (key_le key).
Proof. intros x y z. unfold key_le. apply leb_trans. Qed.

Lemma ascending_key_le (l : list A) :
  sort.ascending (λ x y, String.ltb (key x) (key y)) l →
  StronglySorted (key_le key) l.
Proof.
  intros Hs. apply Sorted_StronglySorted; [apply key_le_trans |].
  eapply Sorted_weaken; [| exact Hs]. intros x y. cbn beta.
  rewrite ltb_negb_leb. by intros ?%negb_false_iff.
Qed.

Lemma key_le_strict (l : list A) :
  StronglySorted (key_le key) l → NoDup (key <$> l) →
  StronglySorted (key_lt key) l.
Proof.
  induction 1 as [|x l Hl IH Hx]; intros Hnd; [constructor |].
  rewrite fmap_cons in Hnd. apply NoDup_cons in Hnd as [Hnotin Hnd].
  constructor; [by apply IH |].
  apply Forall_forall. intros y Hy.
  apply ltb_of_leb_ne.
  - rewrite Forall_forall in Hx. by apply Hx.
  - intros E. apply Hnotin. rewrite E. by apply list_elem_of_fmap_2.
Qed.

(** Two ascending arrangements of the same elements are equal when the
    elements are told apart by their keys. *)
Lemma key_le_unique (l1 l2 : list A) :
  l1 ≡ₚ l2 →
  StronglySorted (key_le key) l1 → StronglySorted (key_le key) l2 →
  (∀ x y, x ∈ l1 → y ∈ l1 → key x = key y → x = y) →
  l1 = l2.
Proof.
  intros Hp Hs1. revert l2 Hp.
  induction Hs1 as [|x l1 Hs1 IH Hx]; intros l2 Hp Hs2 Hinj.
  { by apply Permutation_nil_l in Hp. }
  destruct Hs2 as [|y l2 Hs2 Hy].
  { by apply Permutation_nil_r in Hp. }
  assert (x = y) as ->.
  { assert (y ∈ x :: l1) as Hyin by (rewrite Hp; left).
    assert (x ∈ y :: l2) as Hxin by (rewrite <- Hp; left).
    apply Hinj; [left | done |].
    apply String.leb_antisym.
    - apply elem_of_cons in Hyin as [-> | Hyin]; [apply leb_refl |].
      rewrite Forall_forall in Hx. by apply Hx.
    - apply elem_of_cons in Hxin as [-> | Hxin]; [apply leb_refl |].
      rewrite Forall_forall in Hy. by apply Hy. }
  f_equal. apply IH.
  - by apply (Permutation_cons_inv (a:=y)) in Hp.
  - done.
  - intros a b Ha Hb. apply Hinj; by right.
Qed.

Lemma NoDup_key_inj (l : list A) :
  NoDup (key <$> l) → ∀ x y, x ∈ l → y ∈ l → key x = key y → x = y.
Proof.
  induction l as [|a l IH]; intros Hnd x y Hx Hy E.
  { by apply elem_of_nil in Hx. }
  rewrite fmap_cons in Hnd. apply NoDup_cons in Hnd as [Hnotin Hnd].
  apply elem_of_cons in Hx as [-> | Hx]; apply elem_of_cons in Hy as [-> | Hy].
  - done.
  - destruct Hnotin. rewrite E. by apply list_elem_of_fmap_2.
  - destruct Hnotin. rewrite <- E. by apply list_elem_of_fmap_2.
  - by apply IH.
Qed.
End keyed.

(* ================================================================== *)
(** * Insertion sort on a slice *)

Section insertion_sort.
Context {A : Type} (less : A → A → bool).

Abbreviation I := (sort.slice less).
Abbreviation R := (λ x y : A, less y x = false).

Lemma lookup_second (pre : list A) (y x : A) (post : list A) :
  (pre ++ y :: x :: post) !! S (length pre) = Some x.
Proof.
  rewrite lookup_app_r by lia.
  by replace (S (length pre) - length pre)%nat with 1%nat by lia.
Qed.

Lemma slice_Less_adjacent (pre : list A) (y x : A) (post : list A) :
  sort.Less (Interface:=I) (pre ++ y :: x :: post) (S (length pre)) (length pre)
  = Some (less x y).
Proof.
  cbn. rewrite lookup_second. cbn.
  by rewrite list_lookup_middle.
Qed.

Lemma slice_Swap_adjacent (pre : list A) (y x : A) (post : list A) :
  sort.Swap (Interface:=I) (pre ++ y :: x :: post) (S (length pre)) (length pre)
  = Some (pre ++ x :: y :: post).
Proof.
  cbn. rewrite lookup_second. cbn.
  rewrite list_lookup_middle by done. cbn. f_equal.
  rewrite (insert_app_r_alt pre _ (S (length pre))) by lia.
  replace (S (length pre) - length pre)%nat with 1%nat by lia. cbn.
  rewrite (insert_app_r_alt pre _ (length pre)) by lia.
  by replace (length pre - length pre)%nat with 0%nat by lia.
Qed.

(** The inner loop moves the element at [length pre] to the left past
    the elements it is less than and stops at the first it is not. *)
Lemma sift_spec (pre : list A) (x : A) (post : list A) :
  ∃ l1 l2,
    pre = l1 ++ l2 ∧
    sort.sift (H:=I) (pre ++ x :: post) 0 (length pre)
    = Some (l1 ++ x :: l2 ++ post) ∧
    Forall (λ y, less x y = true) l2 ∧
    (l1 = [] ∨ ∃ l1' y, l1 = l1' ++ [y] ∧ less x y = false).
Proof.
  revert post. induction pre as [|y pre IH] using rev_ind; intros post.
  { exists [], []. repeat split; [constructor | by left]. }
  rewrite length_app. cbn [length].
  replace (length pre + 1)%nat with (S (length pre)) by lia.
  rewrite <- (assoc_L (++)). cbn [app].
  cbn [sort.sift]. change (0 <? S (length pre))%nat with true. cbn iota.
  rewrite slice_Less_adjacent. cbn [mbind option_bind].
  destruct (less x y) eqn:Hxy.
  - rewrite slice_Swap_adjacent. cbn [mbind option_bind].
    destruct (IH (y :: post)) as (l1 & l2 & -> & Hsift & Hl2 & Hl1).
    exists l1, (l2 ++ [y]). split; [by rewrite (assoc_L (++)) |].
    split; [| split; [| done]].
    + rewrite Hsift. by rewrite <- (assoc_L (++) l2 [y] post).
    + apply Forall_app. split; [done | by constructor].
  - exists (pre ++ [y]), []. rewrite app_nil_r. split; [done |].
    split; [by rewrite <- (assoc_L (++)) |].
    split; [constructor | right; eauto].
Qed.

Lemma R_trans (Hless : sort.StrictWeakOrder less) (a b c : A) :
  less b a = false → less c b = false → less c a = false.
Proof. intros Hab Hbc. by apply (sort.less_incomparable less Hless c b a). Qed.

Lemma less_asym (Hless : sort.StrictWeakOrder less) (a b : A) :
  less a b = true → less b a = false.
Proof.
  intros Hab. destruct (less b a) eqn:Hba; [| done].
  pose proof (sort.less_trans less Hless a b a Hab Hba) as H.
  by rewrite (sort.less_irrefl less Hless) in H.
Qed.

Lemma insert_sorted (Hless : sort.StrictWeakOrder less) (l1 l2 : list A) (x : A) :
  StronglySorted R (l1 ++ l2) →
  Forall (λ y, less x y = true) l2 →
  (l1 = [] ∨ ∃ l1' y, l1 = l1' ++ [y] ∧ less x y = false) →
  StronglySorted R (l1 ++ x :: l2).
Proof.
  intros Hs Hl2 Hl1.
  apply StronglySorted_app in Hs as (Hcross & Hs1 & Hs2).
  apply StronglySorted_app. split; [| split; [done |]].
  - intros a b Ha Hb. apply elem_of_cons in Hb as [-> | Hb]; [| by apply Hcross].
    destruct Hl1 as [-> | (l1' & y & -> & Hxy)]; [by apply elem_of_nil in Ha |].
    apply elem_of_app in Ha as [Ha | Ha].
    + apply (R_trans Hless a y x); [| done].
      apply (StronglySorted_app_1_elem_of R l1' [y] a y Hs1 Ha). left.
    + apply list_elem_of_singleton in Ha as ->. done.
  - constructor; [done |].
    eapply Forall_impl; [exact Hl2 |]. intros z Hz. by apply less_asym.
Qed.

(** The outer loop, started with a sorted prefix. *)
Lemma insertionLoop_spec (rest pre : list A) :
  ∃ out,
    sort.insertionLoop (H:=I) (pre ++ rest) 0 (length pre) (length rest)
    = Some out ∧
    out ≡ₚ pre ++ rest ∧
    (sort.StrictWeakOrder less → StronglySorted R pre → StronglySorted R out).
Proof.
  revert pre. induction rest as [|x rest IH]; intros pre.
  { exists pre. rewrite app_nil_r. by repeat split. }
  cbn [length sort.insertionLoop].
  destruct (sift_spec pre x rest) as (l1 & l2 & -> & Hsift & Hl2 & Hl1).
  rewrite Hsift. cbn [mbind option_bind].
  destruct (IH (l1 ++ x :: l2)) as (out & Hloop & Hperm & Hsorted).
  exists out. split; [| split].
  - rewrite <- Hloop. f_equal.
    + by rewrite <- (assoc_L (++) l1 (x :: l2) rest).
    + rewrite !length_app. cbn. lia.
  - rewrite Hperm. rewrite <- !(assoc_L (++)). cbn.
    apply Permutation_app_head. apply Permutation_middle.
  - intros Hless Hs. apply Hsorted; [done |]. by apply insert_sorted.
Qed.

(** [insertionSort] over a whole slice does not panic, permutes the
    slice and, for a strict weak ordering, leaves it in ascending order. *)
Lemma insertionSort_spec (data : list A) :
  ∃ out,
    sort.insertionSort (H:=I) data 0 (length data) = Some out ∧
    out ≡ₚ data ∧
    (sort.StrictWeakOrder less → StronglySorted R out).
Proof.
  unfold sort.insertionSort. destruct data as [|x data].
  { exists []. repeat split; constructor. }
  destruct (insertionLoop_spec data [x]) as (out & Hloop & Hperm & Hsorted).
  exists out. cbn [length].
  replace (S (length data) - 1)%nat with (length data) by lia.
  repeat split; [done | done |].
  intros Hless. apply Hsorted; [done |]. repeat constructor.
Qed.
End insertion_sort.

(* ================================================================== *)
(** * The two implementations keep the promises *)

Lemma Sort_short_permutes (A : Type) (less : A → A → bool) (data : list A) :
  Sort_short (sort.slice less) data ≡ₚ data.
Proof.
  unfold Sort_short. destruct (1 <? _)%nat; [| done].
  destruct (insertionSort_spec less data) as (out & Hout & Hperm & _).
  cbn [sort.Len sort.slice]. by rewrite Hout.
Qed.

Lemma Sort_short_ascending (A : Type) (less : A → A → bool) (data : list A) :
  sort.StrictWeakOrder less →
  sort.ascending less (Sort_short (sort.slice less) data).
Proof.
  intros Hless. unfold Sort_short, sort.ascending.
  destruct (1 <? _)%nat eqn:Hn.
  - destruct (insertionSort_spec less data) as (out & Hout & _ & Hsorted).
    cbn [sort.Len sort.slice]. rewrite Hout. cbn [default].
    apply StronglySorted_Sorted. by apply Hsorted.
  - apply Nat.ltb_ge in Hn. cbn [sort.Len sort.slice] in Hn.
    destruct data as [|x [|y data]]; [constructor | repeat constructor |].
    cbn in Hn. lia.
Qed.

Lemma forward_impl_Lawful : Lawful forward_impl.
Proof.
  split.
  - done.
  - apply Sort_short_permutes.
  - apply Sort_short_ascending.
Qed.

Lemma backward_impl_Lawful : Lawful backward_impl.
Proof.
  split.
  - intros V m. apply reverse_Permutation.
  - apply Sort_short_permutes.
  - apply Sort_short_ascending.
Qed.

Example sortedPackages_sample :
  path_of <$> sortedPackages (H:=forward_impl) sample = ["bufio"; "image"; "image/png"].
Proof. vm_compute. reflexivity. Qed.

Example scopeFiles_sample :
  scopeFiles (H:=backward_impl) sample
  = ["/go/src/image/image.go"; "/go/src/image/png/reader.go";
     "/go/src/image/png/writer.go"].
Proof. vm_compute. reflexivity. Qed.

Example sortedPackages_twins :
  Importable <$> sortedPackages (H:=forward_impl) twins = [false; true] ∧
  Importable <$> sortedPackages (H:=backward_impl) twins = [true; false].
Proof. vm_compute. done. Qed.

(* ================================================================== *)
(** * Properties of the program index *)

Section index.
Context `{G : GoImpl} {HG : Lawful G}.

Lemma collect_values {K V : Type} (l : list (K * V)) (acc : list V) :
  foldl (λ pkgs kv, pkgs ++ [kv.2]) acc l = acc ++ l.*2.
Proof.
  revert acc. induction l as [|kv l IH]; intros acc; cbn.
  - by rewrite app_nil_r.
  - rewrite IH. by rewrite <- (assoc_L (++)).
Qed.

Lemma sortedPackages_unfold (iprog : Program) :
  sortedPackages iprog
  = sort_Sort (sort.slice (λ x y, String.ltb (path_of x) (path_of y)))
      (range_map (AllPackages iprog)).*2.
Proof. unfold sortedPackages. by rewrite collect_values. Qed.

Lemma sortedPackages_Permutation (iprog : Program) :
  sortedPackages iprog ≡ₚ (map_to_list (AllPackages iprog)).*2.
Proof.
  rewrite sortedPackages_unfold, sort_Sort_permutes.
  by rewrite range_map_visits_all.
Qed.

Lemma sortedPackages_key_le (iprog : Program) :
  StronglySorted (key_le path_of) (sortedPackages iprog).
Proof.
  rewrite sortedPackages_unfold. apply ascending_key_le.
  apply sort_Sort_ascending, StrictWeakOrder_key.
Qed.

Lemma collect_names (fs : list File) (acc : list string) :
  Iterate_files fs (λ f files, (files ++ [File_Name f], true)) acc
  = acc ++ (File_Name <$> fs).
Proof.
  revert acc. induction fs as [|f fs IH]; intros acc; cbn.
  - by rewrite app_nil_r.
  - rewrite IH. by rewrite <- (assoc_L (++)).
Qed.

Lemma scopeFiles_unfold (iprog : Program) :
  scopeFiles iprog
  = sort_Sort (sort.slice String.ltb) (File_Name <$> FileSet_files (Fset iprog)).
Proof. unfold scopeFiles, sort_Strings, Iterate. by rewrite collect_names. Qed.

Lemma scopeFiles_Permutation (iprog : Program) :
  scopeFiles iprog ≡ₚ File_Name <$> FileSet_files (Fset iprog).
Proof. by rewrite scopeFiles_unfold, sort_Sort_permutes. Qed.

Lemma scopeFiles_key_le (iprog : Program) :
  StronglySorted (key_le id) (scopeFiles iprog).
Proof.
  rewrite scopeFiles_unfold. apply (ascending_key_le id).
  apply sort_Sort_ascending, (StrictWeakOrder_key id).
Qed.
End index.

(** C3, as the code has it: for every snapshot, whatever the order the map
    is visited in, [sortedPackages] is in ascending order of import path
    (each path at most the next, in the byte order of strings); when the
    packages of the snapshot have different paths the order is strict, no
    path occurs twice, and the sequence is the same for every order of
    visiting the map and every way [sort.Sort] may work. *)
Theorem sortedPackages_ascending (G : GoImpl) (iprog : Program) :
  Lawful G →
  StronglySorted (key_le path_of) (sortedPackages iprog) ∧
  (NoDup (package_paths iprog) →
   StronglySorted (key_lt path_of) (sortedPackages iprog) ∧
   NoDup (path_of <$> sortedPackages iprog) ∧
   ∀ G' : GoImpl, Lawful G' →
     sortedPackages (H:=G') iprog = sortedPackages (H:=G) iprog).
Proof.
  intros HG. split; [apply sortedPackages_key_le |].
  intros Hnd.
  assert (∀ G0 : GoImpl, Lawful G0 →
            NoDup (path_of <$> sortedPackages (H:=G0) iprog)) as Hnd'.
  { intros G0 HG0. by rewrite (sortedPackages_Permutation (G:=G0)). }
  split; [| split; [by apply Hnd' |]].
  - apply key_le_strict; [apply sortedPackages_key_le | by apply Hnd'].
  - intros G' HG'. apply (key_le_unique path_of).
    + by rewrite !sortedPackages_Permutation.
    + apply sortedPackages_key_le.
    + apply sortedPackages_key_le.
    + apply NoDup_key_inj. by apply Hnd'.
Qed.

Lemma sortedPackages_ascending_witness :
  StronglySorted (key_lt path_of) (sortedPackages (H:=forward_impl) sample) ∧
  sortedPackages (H:=backward_impl) sample = sortedPackages (H:=forward_impl) sample.
Proof.
  assert (NoDup (package_paths sample)) as Hnd.
  { apply (bool_decide_unpack _). vm_compute. exact I. }
  destruct (sortedPackages_ascending forward_impl sample forward_impl_Lawful)
    as [_ Hstrict].
  destruct (Hstrict Hnd) as (Hlt & _ & Hsame).
  split; [exact Hlt | apply Hsame, backward_impl_Lawful].
Defined.

(** With two packages of one path the sequence is not strictly ascending,
    a path occurs twice, and the sequence changes with the order in which
    the map is visited. *)
Lemma sortedPackages_same_path :
  ¬ StronglySorted (key_lt path_of) (sortedPackages (H:=forward_impl) twins) ∧
  ¬ NoDup (path_of <$> sortedPackages (H:=forward_impl) twins) ∧
  sortedPackages (H:=backward_impl) twins ≠ sortedPackages (H:=forward_impl) twins.
Proof.
  split; [| split].
  - intros Hs. apply StronglySorted_inv in Hs as [_ Hhd].
    apply Forall_inv in Hhd. vm_compute in Hhd. discriminate.
  - intros Hnd. apply NoDup_cons in Hnd as [Hnotin _].
    apply Hnotin. vm_compute. left.
  - vm_compute. discriminate.
Qed.

(** C10: for every snapshot, the sequence [sortedPackages] returns is a
    permutation of the values of [AllPackages]: one entry per package, as
    many entries as the map has, none dropped, added or repeated. *)
Theorem sortedPackages_all_packages (G : GoImpl) (iprog : Program) :
  Lawful G →
  sortedPackages iprog ≡ₚ (map_to_list (AllPackages iprog)).*2 ∧
  length (sortedPackages iprog) = size (AllPackages iprog) ∧
  (∀ p, p ∈ sortedPackages iprog ↔ ∃ k, AllPackages iprog !! k = Some p).
Proof.
  intros HG. pose proof (sortedPackages_Permutation iprog) as Hp.
  split; [done | split].
  - rewrite Hp, length_fmap. apply length_map_to_list.
  - intros p. rewrite Hp, list_elem_of_fmap. split.
    + intros ([k p'] & -> & Hin). exists k. by apply elem_of_map_to_list.
    + intros (k & Hk). exists (k, p). split; [done |].
      by apply elem_of_map_to_list.
Qed.

(** C4: for every snapshot, [scopeFiles] is a total function that returns
    the names of all the files of the file set in ascending order of the
    byte order of strings; the result is the same whatever way [sort.Sort]
    works, and it is empty for a snapshot without files. *)
Theorem scopeFiles_sorted (G : GoImpl) (iprog : Program) :
  Lawful G →
  StronglySorted (key_le id) (scopeFiles iprog) ∧
  scopeFiles iprog ≡ₚ File_Name <$> FileSet_files (Fset iprog) ∧
  (∀ G' : GoImpl, Lawful G' →
     scopeFiles (H:=G') iprog = scopeFiles (H:=G) iprog) ∧
  (FileSet_files (Fset iprog) = [] → scopeFiles iprog = []).
Proof.
  intros HG.
  split; [apply scopeFiles_key_le |].
  split; [apply scopeFiles_Permutation |].
  split.
  - intros G' HG'. apply (key_le_unique id).
    + by rewrite !scopeFiles_Permutation.
    + apply scopeFiles_key_le.
    + apply scopeFiles_key_le.
    + by intros x y _ _ E.
  - intros Hempty. apply Permutation_nil_r.
    rewrite scopeFiles_Permutation, Hempty. done.
Qed.

Lemma scopeFiles_sorted_witness :
  scopeFiles (H:=forward_impl) empty_snapshot = [] ∧
  StronglySorted (key_le id) (scopeFiles (H:=forward_impl) sample).
Proof.
  split.
  - by apply (scopeFiles_sorted forward_impl empty_snapshot forward_impl_Lawful).
  - apply (scopeFiles_sorted forward_impl sample forward_impl_Lawful).
Defined.

Lemma sortedPackages_all_packages_witness :
  length (sortedPackages (H:=forward_impl) sample) = 3%nat.
Proof.
  apply (sortedPackages_all_packages forward_impl sample forward_impl_Lawful).
Defined.

(* ================================================================== *)
(** * Properties of the start-up sequence *)

Example main_serves :
  (main (H:=forward_impl) (machine ∅ (ParseOk defaultFlags ["image/png"]))).1
  = [ FromArgs {| Build := {| GOOS := "linux"; GOARCH := "amd64";
                              BuildTags := [""] |};
                  SourceImports := true |} ["image/png"];
      Load {| Build := {| GOOS := "linux"; GOARCH := "amd64";
                          BuildTags := [""] |};
              SourceImports := true |};
      NewOracle;
      HandleFunc "/"; HandleFunc "/source"; HandleFunc "/file";
      HandleFunc "/query"; Handle "/static/";
      Listen ":8080";
      StartCommand ["xdg-open"; "http://localhost:8080/"];
      Serve ].
Proof. vm_compute. reflexivity. Qed.

Section startup.
Context `{G : GoImpl}.

Lemma main_no_arguments (w : World) (fl : Flags) :
  flag_Parse w = ParseOk fl [] →
  main w
  = ([Stderr ("Error: no package arguments." +:+ newline +:+ useHelp); Exit 2],
     None).
Proof. intros Hparse. unfold main, parseArgs. rewrite Hparse. reflexivity. Qed.

Lemma main_ErrHelp (w : World) :
  flag_Parse w = ParseErrHelp →
  main w
  = ([Stderr useHelp; Stdout (helpMessage w +:+ newline);
      Stdout ("Flags:" +:+ newline); Stderr (flag_Defaults w); Exit 2], None).
Proof. intros Hparse. unfold main, parseArgs. rewrite Hparse. reflexivity. Qed.

Lemma main_ParseError (w : World) (msg : string) :
  flag_Parse w = ParseError msg →
  main w = ([Stderr (msg +:+ newline); Stderr useHelp; Exit 2], None).
Proof. intros Hparse. unfold main, parseArgs. rewrite Hparse. reflexivity. Qed.
End startup.

(** C5: when no package argument is left on the command line (the flags
    did not parse, or they parsed and nothing follows them), the process
    writes to standard error and exits with code 2 without having called
    the loader or opened a listener; when the flags parsed, what it writes
    is the error [no package arguments] followed by the hint to [-help]. *)
Theorem zero_package_arguments (G : GoImpl) (w : World) :
  (∀ fl rest, flag_Parse w = ParseOk fl rest → rest = []) →
  exit_code (main w) = Some 2 ∧
  (main w).2 = None ∧
  stderr_text (main w) ≠ "" ∧
  listener_opened (main w) = false ∧
  loading_attempted (main w) = false ∧
  (∀ fl, flag_Parse w = ParseOk fl [] →
     stderr_text (main w)
     = "Error: no package arguments." +:+ newline +:+ useHelp).
Proof.
  intros Hnone. destruct (flag_Parse w) as [fl rest | | msg] eqn:Hparse.
  - rewrite (Hnone fl rest eq_refl) in Hparse.
    rewrite (main_no_arguments w fl Hparse).
    repeat split; try reflexivity. vm_compute. discriminate.
  - rewrite (main_ErrHelp w Hparse).
    repeat split; try reflexivity; [| discriminate].
    vm_compute. discriminate.
  - rewrite (main_ParseError w msg Hparse).
    repeat split; try reflexivity; [| discriminate].
    unfold stderr_text. cbn [fst foldr].
    apply string_app_nonempty_r. vm_compute. discriminate.
Qed.

Lemma zero_package_arguments_witness :
  exit_code (main (H:=forward_impl) (machine ∅ (ParseOk defaultFlags []))) = Some 2.
Proof.
  apply (zero_package_arguments forward_impl (machine ∅ (ParseOk defaultFlags []))).
  intros fl rest E. injection E as _ <-. reflexivity.
Defined.

Lemma loading_writes_nothing (pre : list Event) (acc : string) :
  Forall (λ e, is_loading e = true) pre →
  foldr (λ e acc, match e with Stderr s => s +:+ acc | _ => acc end) acc pre = acc.
Proof.
  induction 1 as [|e pre He _ IH]; [done |].
  cbn [foldr]. destruct e; (discriminate He || exact IH).
Qed.

(** C6: when resolving the package arguments, loading and type-checking,
    or making the oracle fails, the process prints the error on standard
    error and exits with code 1; no handler is registered, no listener is
    opened and the server is never started. *)
Theorem startup_failure_exits (G : GoImpl) (w : World) (fl : Flags)
    (args : list string) (err : string) :
  flag_Parse w = ParseOk fl args → args ≠ [] →
  startup_fails w fl args err →
  exit_code (main w) = Some 1 ∧
  (main w).2 = None ∧
  stderr_text (main w) = err +:+ newline ∧
  listener_opened (main w) = false ∧
  (Serve ∉ (main w).1) ∧
  (∀ pattern, HandleFunc pattern ∉ (main w).1).
Proof.
  intros Hparse Hargs Hfail.
  assert (∃ pre, main w = (pre ++ [Stderr (err +:+ newline); Exit 1], None) ∧
                 Forall (λ e, is_loading e = true) pre) as (pre & -> & Hpre).
  { unfold startup_fails, loadConfig in Hfail.
    unfold main, parseArgs. rewrite Hparse.
    destruct args as [|a args]; [done |].
    unfold mbind, Proc_bind, mret, Proc_ret. cbn -[loadSettings].
    destruct Hfail as [H1 | [(H1 & H2) | (H1 & iprog & H2 & H3)]].
    - eexists [FromArgs _ (a :: args)].
      split; [| by repeat constructor].
      rewrite H1. reflexivity.
    - eexists [FromArgs _ (a :: args); Load _].
      split; [| by repeat constructor].
      rewrite H1. cbn -[loadSettings]. rewrite H2. reflexivity.
    - eexists [FromArgs _ (a :: args); Load _; NewOracle].
      split; [| by repeat constructor].
      rewrite H1. cbn -[loadSettings]. rewrite H2.
      cbn -[loadSettings]. rewrite H3. reflexivity. }
  assert (∀ e, e ∈ pre ++ [Stderr (err +:+ newline); Exit 1] →
               is_loading e = true ∨ e = Stderr (err +:+ newline) ∨ e = Exit 1)
    as Hevents.
  { intros e [He | He]%elem_of_app.
    - left. rewrite Forall_forall in Hpre. by apply Hpre.
    - right. apply elem_of_cons in He as [-> | He]; [by left |].
      apply list_elem_of_singleton in He as ->. by right. }
  repeat split.
  - unfold exit_code. cbn [fst]. rewrite last_app. reflexivity.
  - unfold stderr_text. cbn [fst]. rewrite foldr_app. cbn [foldr].
    rewrite string_app_nil_r. by apply loading_writes_nothing.
  - unfold listener_opened. cbn [fst]. apply not_true_is_false.
    intros (e & He & Hl)%existsb_exists. apply list_elem_of_In, Hevents in He.
    destruct He as [He | [-> | ->]]; [by destruct e | done | done].
  - cbn [fst]. intros He%Hevents. by destruct He as [He | [He | He]].
  - cbn [fst]. intros pattern He%Hevents. by destruct He as [He | [He | He]].
Qed.

Lemma startup_failure_exits_witness :
  exit_code (main (H:=forward_impl)
    (broken_load (machine ∅ (ParseOk defaultFlags ["image/png"]))
       "png.go:3:1: expected declaration")) = Some 1.
Proof.
  apply (startup_failure_exits forward_impl _ defaultFlags ["image/png"]
           "png.go:3:1: expected declaration").
  - reflexivity.
  - discriminate.
  - right. left. split; reflexivity.
Defined.

(* ================================================================== *)
(** * [init] and the build tags *)

(** C7, as the code has it: when [GOMAXPROCS] is not in the environment,
    or is there with an empty value, [init] sets the runtime's setting to
    the number of CPUs and at least 4; when it is there with a value that
    is not empty, the setting is left as it is. *)
Theorem init_GOMAXPROCS (w : World) (setting : Z) :
  (os_Environ w !! "GOMAXPROCS" = None →
   init w setting = Z.max (runtime_NumCPU w) 4) ∧
  (os_Environ w !! "GOMAXPROCS" = Some "" →
   init w setting = Z.max (runtime_NumCPU w) 4) ∧
  (∀ value, os_Environ w !! "GOMAXPROCS" = Some value → value ≠ "" →
            init w setting = setting).
Proof.
  assert (os_Getenv w "GOMAXPROCS" = "" →
          init w setting = Z.max (runtime_NumCPU w) 4) as Hunset.
  { intros Henv. unfold init, runtime_GOMAXPROCS. rewrite Henv. cbn.
    destruct (runtime_NumCPU w <? 4) eqn:Hn.
    - apply Z.ltb_lt in Hn. cbn. lia.
    - apply Z.ltb_ge in Hn. destruct (runtime_NumCPU w <? 1) eqn:H1; [| lia].
      apply Z.ltb_lt in H1. lia. }
  split; [| split].
  - intros Henv. apply Hunset. unfold os_Getenv. by rewrite Henv.
  - intros Henv. apply Hunset. unfold os_Getenv. by rewrite Henv.
  - intros value Henv Hvalue. unfold init, os_Getenv. rewrite Henv.
    apply String.eqb_neq in Hvalue. by rewrite Hvalue.
Qed.

Lemma init_GOMAXPROCS_witness :
  init (machine ∅ ParseErrHelp) 1 = 4 ∧
  init (machine {["GOMAXPROCS" := "8"]} ParseErrHelp) 1 = 1.
Proof.
  split.
  - destruct (init_GOMAXPROCS (machine ∅ ParseErrHelp) 1) as (Hunset & _ & _).
    apply Hunset. reflexivity.
  - destruct (init_GOMAXPROCS (machine {["GOMAXPROCS" := "8"]} ParseErrHelp) 1)
      as (_ & _ & Hset).
    apply (Hset "8"); [vm_compute; reflexivity | discriminate].
Defined.

(** [GOMAXPROCS] set to the empty string is set, and [init] changes the
    runtime's setting all the same. *)
Lemma init_GOMAXPROCS_set_but_empty :
  is_Some (os_Environ (machine {["GOMAXPROCS" := ""]} ParseErrHelp) !! "GOMAXPROCS") ∧
  init (machine {["GOMAXPROCS" := ""]} ParseErrHelp) 1 ≠ 1.
Proof.
  split.
  - exists "". reflexivity.
  - vm_compute. discriminate.
Qed.

(** C8, as the code has it: with [-tags] left empty the build settings
    carry one build tag, the empty string ([strings.Split] of the empty
    string has one field), and this is the configuration the loader is
    called with; the empty tag is equal to no name that is not empty, so
    looking a name up among the tags answers as it does without tags. *)
Theorem default_tags_one_empty_tag (G : GoImpl) (w : World) (fl : Flags)
    (args : list string) :
  tags fl = "" →
  BuildTags (loadSettings w fl) = [""] ∧
  (∀ name, name ≠ "" → hasBuildTag (loadSettings w fl) name = false) ∧
  (flag_Parse w = ParseOk fl args → args ≠ [] →
   head (main w).1 = Some (FromArgs (loadConfig w fl) args)).
Proof.
  intros Htags. split; [| split].
  - unfold loadSettings. cbn. by rewrite Htags.
  - intros name Hname. unfold hasBuildTag, loadSettings. cbn. rewrite Htags. cbn.
    rewrite orb_false_r. by apply String.eqb_neq.
  - intros Hparse Hargs. unfold main, parseArgs. rewrite Hparse.
    destruct args as [|a args]; [done |]. reflexivity.
Qed.

Lemma default_tags_one_empty_tag_witness :
  BuildTags (loadSettings (machine ∅ (ParseOk defaultFlags ["image/png"]))
               defaultFlags) = [""].
Proof.
  by apply (default_tags_one_empty_tag forward_impl
              (machine ∅ (ParseOk defaultFlags ["image/png"])) defaultFlags
              ["image/png"]).
Defined.

(** With the default flags the build settings do carry a build tag. *)
Lemma default_tags_not_none :
  tags defaultFlags = "" ∧
  BuildTags (loadSettings (machine ∅ (ParseOk defaultFlags ["image/png"]))
               defaultFlags) ≠ [].
Proof. split; [reflexivity | vm_compute; discriminate]. Qed.

(* ================================================================== *)
(** * Mutual exclusion of engine calls *)

Module CoordinatorFacts.
Import Coordinator.

(** Changing the stage of one request that does not hold the guard
    before and does not after changes nothing for the others. *)
Lemma lookup_set_stage (s : State) (i j : nat) (st st' : Stage) (l : bool) :
  requests (set_stage s i st l) !! j = Some st' →
  (i = j ∧ st' = st) ∨ (i ≠ j ∧ requests s !! j = Some st').
Proof.
  unfold set_stage. cbn.
  intros [(-> & -> & _) | [Hne Hj]]%list_lookup_insert_Some; [by left | by right].
Qed.

Lemma lookup_set_stage_same (s : State) (i : nat) (old st : Stage) (l : bool) :
  requests s !! i = Some old →
  requests (set_stage s i st l) !! i = Some st.
Proof.
  intros Hi. unfold set_stage. cbn. apply list_lookup_insert_eq.
  by eapply lookup_lt_Some.
Qed.

Lemma lookup_set_stage_other (s : State) (i j : nat) (st st' : Stage) (l : bool) :
  i ≠ j → requests s !! j = Some st' →
  requests (set_stage s i st l) !! j = Some st'.
Proof.
  intros Hne Hj. unfold set_stage. cbn. by rewrite list_lookup_insert_ne.
Qed.

Lemma exclusive_initial : exclusive initial.
Proof.
  split; [| split].
  - intros i j st st' Hi. cbn in Hi. by rewrite lookup_nil in Hi.
  - intros _ i st Hi. cbn in Hi. by rewrite lookup_nil in Hi.
  - discriminate.
Qed.

(** A request that moves between two stages without the guard. *)
Lemma exclusive_outside (s : State) (i : nat) (old st : Stage) :
  exclusive s → requests s !! i = Some old →
  holds_guard old = false → holds_guard st = false →
  exclusive (set_stage s i st (locked s)).
Proof.
  intros (Huniq & Hfree & Hheld) Hi Hold Hst. split; [| split].
  - intros j k stj stk Hj Hk Hgj Hgk.
    apply lookup_set_stage in Hj as [[-> ->] | [Hnej Hj]]; [congruence |].
    apply lookup_set_stage in Hk as [[-> ->] | [Hnek Hk]]; [congruence |].
    by eapply Huniq.
  - intros Hl j stj Hj. cbn in Hl.
    apply lookup_set_stage in Hj as [[-> ->] | [Hnej Hj]]; [done |].
    by eapply Hfree.
  - intros Hl. cbn in Hl. destruct (Hheld Hl) as (k & stk & Hk & Hgk).
    exists k, stk. split; [| done].
    apply lookup_set_stage_other; [| done]. intros ->. congruence.
Qed.

(** A request that takes the free guard. *)
Lemma exclusive_acquire (s : State) (i : nat) (old st : Stage) :
  exclusive s → requests s !! i = Some old → locked s = false →
  holds_guard st = true →
  exclusive (set_stage s i st true).
Proof.
  intros (Huniq & Hfree & Hheld) Hi Hl Hst. split; [| split].
  - intros j k stj stk Hj Hk Hgj Hgk.
    apply lookup_set_stage in Hj as [[-> ->] | [Hnej Hj]];
      apply lookup_set_stage in Hk as [[-> ->] | [Hnek Hk]]; try done.
    + rewrite (Hfree Hl _ _ Hk) in Hgk. done.
    + rewrite (Hfree Hl _ _ Hj) in Hgj. done.
    + rewrite (Hfree Hl _ _ Hj) in Hgj. done.
  - discriminate.
  - intros _. exists i, st. split; [| done]. by eapply lookup_set_stage_same.
Qed.

(** The holder of the guard moves on, keeping the guard or giving it
    back. *)
Lemma exclusive_holder (s : State) (i : nat) (old st : Stage) :
  exclusive s → requests s !! i = Some old → holds_guard old = true →
  exclusive (set_stage s i st (holds_guard st)).
Proof.
  intros (Huniq & Hfree & Hheld) Hi Hold.
  assert (∀ j stj, i ≠ j → requests s !! j = Some stj →
                   holds_guard stj = false) as Hothers.
  { intros j stj Hne Hj. destruct (holds_guard stj) eqn:Hg; [| done].
    destruct Hne. by eapply Huniq. }
  split; [| split].
  - intros j k stj stk Hj Hk Hgj Hgk.
    apply lookup_set_stage in Hj as [[-> ->] | [Hnej Hj]];
      apply lookup_set_stage in Hk as [[-> ->] | [Hnek Hk]]; try done.
    + rewrite (Hothers _ _ Hnek Hk) in Hgk. done.
    + rewrite (Hothers _ _ Hnej Hj) in Hgj. done.
    + rewrite (Hothers _ _ Hnej Hj) in Hgj. done.
  - intros Hst j stj Hj. cbn in Hst.
    apply lookup_set_stage in Hj as [[-> ->] | [Hnej Hj]]; [done |].
    by eapply Hothers.
  - intros Hst. exists i, st. split; [| done].
    by eapply lookup_set_stage_same.
Qed.

Lemma exclusive_step (s s' : State) (a : Action) :
  exclusive s → step s a = Some s' → exclusive s'.
Proof.
  intros Hex Hstep. destruct a as [| i valid | i | i ok | i]; cbn in Hstep.
  - injection Hstep as <-. destruct Hex as (Huniq & Hfree & Hheld).
    assert (∀ j stj, (requests s ++ [Validating]) !! j = Some stj →
              holds_guard stj = true → requests s !! j = Some stj) as Hold.
    { intros j stj Hj Hg. apply lookup_app_Some in Hj as [Hj | [_ Hj]]; [done |].
      apply list_lookup_singleton_Some in Hj as [_ <-]. done. }
    split; [| split]; cbn.
    + intros j k stj stk Hj Hk Hgj Hgk. eapply Huniq; eauto.
    + intros Hl j stj Hj. destruct (holds_guard stj) eqn:Hg; [| done].
      rewrite <- Hg. eapply Hfree; eauto.
    + intros Hl. destruct (Hheld Hl) as (k & stk & Hk & Hgk).
      exists k, stk. split; [| done]. by apply lookup_app_l_Some.
  - destruct (requests s !! i) as [[]|] eqn:Hi; try discriminate.
    injection Hstep as <-.
    eapply exclusive_outside; eauto. by destruct valid.
  - destruct (requests s !! i) as [[]|] eqn:Hi; try discriminate.
    destruct (locked s) eqn:Hl; [discriminate |].
    injection Hstep as <-. eapply exclusive_acquire; eauto.
  - destruct (requests s !! i) as [[]|] eqn:Hi; try discriminate.
    injection Hstep as <-.
    destruct Hex as (Huniq & Hfree & Hheld).
    assert (locked s = true) as Hl.
    { destruct (locked s) eqn:Hl; [done |]. by specialize (Hfree eq_refl _ _ Hi). }
    rewrite Hl. by apply (exclusive_holder s i InEngine (Releasing ok)).
  - destruct (requests s !! i) as [[| | | | ok' |]|] eqn:Hi; try discriminate.
    injection Hstep as <-.
    by apply (exclusive_holder s i (Releasing ok') (Answered ok')).
Qed.

Lemma exclusive_run (schedule : list Action) (s s' : State) :
  exclusive s → run s schedule = Some s' → exclusive s'.
Proof.
  revert s. induction schedule as [|a schedule IH]; intros s Hex Hrun; cbn in Hrun.
  - by injection Hrun as <-.
  - destruct (step s a) as [s1|] eqn:Hstep; [| discriminate].
    cbn in Hrun. eapply IH; [| done]. by eapply exclusive_step.
Qed.

(** A run passes through a state after each of its steps. *)
Lemma run_app (s s' : State) (done_ rest : list Action) :
  run s (done_ ++ rest) = Some s' →
  ∃ mid, run s done_ = Some mid ∧ run mid rest = Some s'.
Proof.
  revert s. induction done_ as [|a done_ IH]; intros s Hrun; cbn in Hrun.
  - by exists s.
  - destruct (step s a) as [s1|] eqn:Hstep; [| discriminate].
    cbn in Hrun. destruct (IH s1 Hrun) as (mid & Hmid & Hrest).
    exists mid. cbn. by rewrite Hstep.
Qed.

End CoordinatorFacts.

(** C2: at every instant of every run of the coordinator, whatever the
    schedule of the request goroutines, at most one request is inside the
    engine; the guard is locked while a request is between its [Lock] and
    its [Unlock], so also when the engine has failed, and free again as
    soon as no request is. *)
Theorem engine_calls_never_overlap (schedule : list Coordinator.Action)
    (final : Coordinator.State) (instant : nat) :
  Coordinator.run Coordinator.initial schedule = Some final →
  ∃ s, Coordinator.run Coordinator.initial (take instant schedule) = Some s ∧
    (∀ i j, Coordinator.in_engine s i → Coordinator.in_engine s j → i = j) ∧
    (∀ i, Coordinator.in_engine s i → Coordinator.locked s = true) ∧
    ((∀ i st, Coordinator.requests s !! i = Some st →
              Coordinator.holds_guard st = false) →
     Coordinator.locked s = false).
Proof.
  intros Hrun. rewrite <- (take_drop instant schedule) in Hrun.
  apply CoordinatorFacts.run_app in Hrun as (s & Hs & _).
  exists s. split; [done |].
  destruct (CoordinatorFacts.exclusive_run _ _ s
              CoordinatorFacts.exclusive_initial Hs) as (Huniq & Hfree & Hheld).
  split; [| split].
  - intros i j Hi Hj. by eapply Huniq.
  - intros i Hi. destruct (Coordinator.locked s) eqn:Hl; [done |].
    by specialize (Hfree eq_refl _ _ Hi).
  - intros Hnone. destruct (Coordinator.locked s) eqn:Hl; [| done].
    destruct (Hheld eq_refl) as (k & stk & Hk & Hgk).
    rewrite (Hnone _ _ Hk) in Hgk. done.
Qed.

Lemma engine_calls_never_overlap_witness :
  ∃ s,
    Coordinator.run Coordinator.initial
      [Coordinator.Arrive; Coordinator.Arrive;
       Coordinator.Validate 0 true; Coordinator.Validate 1 true;
       Coordinator.Lock 0; Coordinator.EngineReturn 0 false;
       Coordinator.Unlock 0; Coordinator.Lock 1]
    = Some s ∧
    Coordinator.in_engine s 1 ∧ Coordinator.locked s = true.
Proof.
  destruct (engine_calls_never_overlap
              [Coordinator.Arrive; Coordinator.Arrive;
               Coordinator.Validate 0 true; Coordinator.Validate 1 true;
               Coordinator.Lock 0; Coordinator.EngineReturn 0 false;
               Coordinator.Unlock 0; Coordinator.Lock 1]
              _ 8 eq_refl) as (s & Hs & _ & Hlocked & _).
  exists s. split; [exact Hs |].
  assert (Coordinator.in_engine s 1) as Hin.
  { cbn in Hs. injection Hs as <-. reflexivity. }
  split; [exact Hin | by apply (Hlocked 1%nat)].
Defined.

(** While a request is inside the engine, [Lock] of another request does
    not go through. *)
Example second_Lock_blocks :
  Coordinator.run Coordinator.initial
    [Coordinator.Arrive; Coordinator.Arrive;
     Coordinator.Validate 0 true; Coordinator.Validate 1 true;
     Coordinator.Lock 0; Coordinator.Lock 1] = None.
Proof. reflexivity. Qed.

(* ================================================================== *)
(** * The whole of [main] *)

(** Runs [main] up to the next answer of the surroundings and splits on
    that answer; the run is evaluated once for each case. *)
Ltac main_step :=
  lazy -[loadSettings scopeFiles sortedPackages fmt.Sprintf String.eqb
         String.append conf_FromArgs conf_Load oracle_New net_Listen
         cmd_Start srv_Serve runtime_GOOS open httpAddr flag_Parse
         importer_FromArgsUsage flag_Defaults helpMessage useHelp newline].

Ltac main_cases w fl :=
  let run := fresh "run" in
  let E := fresh "E" in
  remember (main w) as run eqn:E; revert E;
  unfold main, parseArgs;
  destruct (flag_Parse w) as [fl [|? ?] | | ?] eqn:?;
  main_step;
  [ | destruct (conf_FromArgs w _ _) eqn:?; main_step;
      [ | destruct (conf_Load w _ _) eqn:?; main_step;
          [ destruct (oracle_New w _) eqn:?; main_step;
            [ | destruct (net_Listen w _) eqn:?; main_step;
                [ | destruct (open fl) eqn:?; main_step;
                    [ destruct (String.eqb (runtime_GOOS w) "darwin") eqn:?;
                      [ | destruct (String.eqb (runtime_GOOS w) "windows") eqn:? ];
                      main_step;
                      (destruct (cmd_Start w _) eqn:?; main_step;
                       destruct (srv_Serve w) eqn:?; main_step)
                    | destruct (srv_Serve w) eqn:?; main_step ] ] ]
          | ] ]
    | | ];
  intros ->; main_step.

Ltac use_setup H :=
  let Hparse := fresh "Hparse" in
  destruct H as (Hparse & ? & ? & ? & ?);
  match goal with
  | E : flag_Parse ?w = _, E' : flag_Parse ?w = _ |- _ => rewrite E in E'
  end;
  simplify_eq.

Ltac absurd_setup := solve [ congruence | done | exfalso; auto ].
(** X1: whatever the surroundings answer, [main] leaves through [os.Exit]
    exactly when its run has no value; it never exits with code 0: the
    code is 2 exactly when no package argument is left (the flags did not
    parse, or nothing follows them) and 1 for every other exit. *)
Theorem main_exit_codes (G : GoImpl) (w : World) :
  ((main w).2 = None ↔ is_Some (exit_code (main w))) ∧
  (exit_code (main w) = Some 2 ↔
   ∀ fl rest, flag_Parse w = ParseOk fl rest → rest = []) ∧
  (∀ code, exit_code (main w) = Some code → code = 1 ∨ code = 2).
Proof.
  main_cases w fl.
  all: (split; [| split]);
    [ first [ by (split; [eauto | done]) | by (split; [done | intros [? [=]]]) ]
    | split; [try done | try done]
    | intros ? [= <-]; auto ].
  all: first [ by intros _ ? ? [= _ <-]
             | intros H; by specialize (H _ _ eq_refl) ].
Qed.

Lemma main_exit_codes_witness :
  exit_code (main (H:=forward_impl) (host ParseErrHelp None true None)) = Some 2.
Proof.
  apply (main_exit_codes forward_impl (host ParseErrHelp None true None)).
  intros fl rest Hparse. discriminate Hparse.
Defined.


(** X3: when the listener cannot be opened, [main] prints the error on
    standard error and exits with code 1 right after the set-up: nothing
    is written to standard output, no browser is started, the server is
    not run. *)
Theorem listen_failure_exits (G : GoImpl) (w : World) (fl : Flags)
    (args : list string) (iprog : Program) (err : string) :
  setup_succeeds w fl args iprog →
  net_Listen w (httpAddr fl) = Some err →
  (main w).1 = setup_events w fl args ++ [Stderr (err +:+ newline); Exit 1] ∧
  exit_code (main w) = Some 1 ∧
  stderr_text (main w) = err +:+ newline ∧
  stdout_text (main w) = "" ∧
  commands_started (main w) = [].
Proof.
  intros H Hlisten. revert H Hlisten. main_cases w fl0.
  all: intros H Hlisten; use_setup H; try absurd_setup.
  repeat split. apply string_app_nil_r.
Qed.
Lemma listen_failure_exits_witness :
  exit_code
    (main (H:=forward_impl)
       (host (ParseOk defaultFlags ["image/png"])
          (Some "listen tcp :8080: bind: address already in use") true None))
  = Some 1.
Proof.
  apply (listen_failure_exits forward_impl
           (host (ParseOk defaultFlags ["image/png"])
              (Some "listen tcp :8080: bind: address already in use") true None)
           defaultFlags ["image/png"] sample
           "listen tcp :8080: bind: address already in use").
  - by repeat split.
  - reflexivity.
Defined.





(** X8: [main] keeps running exactly when the set-up went through, the
    listener was opened and the server does not return; the last thing it
    did is start the server, and the package variables then hold the
    arguments, the loaded program, its file names in ascending order and
    its packages in ascending order of path, one entry per package. *)
Theorem serving_state (G : GoImpl) (w : World) (g : Globals) :
  Lawful G →
  ((main w).2 = Some g ↔
   ∃ fl, setup_succeeds w fl (args g) (iprog g) ∧
         net_Listen w (httpAddr fl) = None ∧ srv_Serve w = None ∧
         files g = scopeFiles (iprog g) ∧
         packages g = sortedPackages (iprog g)) ∧
  ((main w).2 = Some g →
   exit_code (main w) = None ∧ last (main w).1 = Some Serve ∧
   StronglySorted (key_le id) (files g) ∧
   StronglySorted (key_le path_of) (packages g) ∧
   packages g ≡ₚ (map_to_list (AllPackages (iprog g))).*2).
Proof.
  intros HG.
  assert (((main w).2 = Some g ↔
           ∃ fl, setup_succeeds w fl (args g) (iprog g) ∧
                 net_Listen w (httpAddr fl) = None ∧ srv_Serve w = None ∧
                 files g = scopeFiles (iprog g) ∧
                 packages g = sortedPackages (iprog g)) ∧
          ((main w).2 = Some g →
           exit_code (main w) = None ∧ last (main w).1 = Some Serve)) as [Hiff Hlast].
  { clear HG. main_cases w fl.
    all: split;
      [ split;
        [ first [ done | intros [= <-]; eexists; by repeat split ]
        | intros (? & H & ? & ? & ? & ?); use_setup H; try absurd_setup;
          destruct g; cbn in *; congruence ]
      | first [ done | by intros _ ] ]. }
  split; [exact Hiff |].
  intros Hg. destruct (Hlast Hg) as [-> ->].
  apply Hiff in Hg as (fl & _ & _ & _ & -> & ->).
  repeat split.
  - apply scopeFiles_key_le.
  - apply sortedPackages_key_le.
  - apply sortedPackages_Permutation.
Qed.
Lemma serving_state_witness :
  ∃ g, (main (H:=forward_impl)
          (host (ParseOk quietFlags ["image/png"]) None true None)).2 = Some g ∧
       StronglySorted (key_le id) (files g).
Proof.
  eexists. split; [vm_compute; reflexivity |].
  apply (serving_state forward_impl
           (host (ParseOk quietFlags ["image/png"]) None true None) _
           forward_impl_Lawful).
  vm_compute. reflexivity.
Defined.

(** X9: [startBrowser] starts exactly one command and reports whether it
    started; the URL is its last argument, after [open] on darwin, after
    [cmd /c start] on windows and after [xdg-open] everywhere else. *)
Theorem startBrowser_command (w : World) (url : string) :
  ∃ argv,
    startBrowser w url = ([StartCommand argv], Some (cmd_Start w argv)) ∧
    last argv = Some url ∧
    (runtime_GOOS w = "darwin" → argv = ["open"; url]) ∧
    (runtime_GOOS w = "windows" → argv = ["cmd"; "/c"; "start"; url]) ∧
    (runtime_GOOS w ≠ "darwin" → runtime_GOOS w ≠ "windows" →
     argv = ["xdg-open"; url]).
Proof.
  unfold startBrowser.
  destruct (String.eqb (runtime_GOOS w) "darwin") eqn:Hd;
    [ apply String.eqb_eq in Hd
    | apply String.eqb_neq in Hd;
      destruct (String.eqb (runtime_GOOS w) "windows") eqn:Hw;
      [ apply String.eqb_eq in Hw | apply String.eqb_neq in Hw ] ].
  all: eexists; split; [reflexivity |]; split; [reflexivity |].
  all: repeat split; try done.
  all: intros H; rewrite H in *; discriminate.
Qed.
Lemma startBrowser_command_witness :
  ∃ argv, (startBrowser (host ParseErrHelp None true None) "http://localhost:8080/").1
          = [StartCommand argv] ∧
          argv = ["open"; "http://localhost:8080/"].
Proof.
  destruct (startBrowser_command (host ParseErrHelp None true None)
              "http://localhost:8080/") as (argv & Hrun & _ & Hdarwin & _).
  exists argv. split; [by rewrite Hrun | by apply Hdarwin].
Defined.

(* ================================================================== *)
(** * The methods of [byPath] *)

Lemma insert_head_Permutation {A : Type} (l : list A) (j : nat) (a y : A) :
  l !! j = Some y → y :: <[j:=a]> l ≡ₚ a :: l.
Proof.
  revert j. induction l as [|b l IH]; intros [|j] Hj; simplify_eq/=.
  - apply Permutation_swap.
  - transitivity (b :: y :: <[j:=a]> l); [apply Permutation_swap |].
    transitivity (b :: a :: l); [by rewrite (IH j Hj) | apply Permutation_swap].
Qed.

Lemma swap_Permutation {A : Type} (l : list A) (i j : nat) (x y : A) :
  l !! i = Some x → l !! j = Some y → <[j:=x]> (<[i:=y]> l) ≡ₚ l.
Proof.
  revert i j. induction l as [|a l IH]; intros [|i] [|j] Hi Hj; simplify_eq/=.
  - done.
  - by apply insert_head_Permutation.
  - by apply insert_head_Permutation.
  - f_equiv. by apply IH.
Qed.

Lemma swap_lookup {A : Type} (l : list A) (i j : nat) (x y : A) (k : nat) :
  l !! i = Some x → l !! j = Some y →
  <[j:=x]> (<[i:=y]> l) !! k
  = if decide (k = j) then Some x else if decide (k = i) then Some y else l !! k.
Proof.
  intros Hx Hy.
  pose proof (lookup_lt_Some _ _ _ Hx). pose proof (lookup_lt_Some _ _ _ Hy).
  case_decide as Hj; [subst |].
  - apply list_lookup_insert_eq. by rewrite length_insert.
  - rewrite list_lookup_insert_ne by done.
    case_decide as Hi; [subst |].
    + by apply list_lookup_insert_eq.
    + by rewrite list_lookup_insert_ne.
Qed.

Lemma byPath_Swap_eq (p : list PackageInfo) (i j : nat) :
  sort.Swap (Interface:=byPath_Interface) p i j
  = x ← p !! i; y ← p !! j; Some (<[j:=x]> (<[i:=y]> p)).
Proof. reflexivity. Qed.

Lemma byPath_Less_eq (p : list PackageInfo) (i j : nat) :
  sort.Less (Interface:=byPath_Interface) p i j
  = x ← p !! i; y ← p !! j; Some (String.ltb (path_of x) (path_of y)).
Proof. reflexivity. Qed.
(** X10: for two indices inside the slice, [Swap] does not panic and gives
    a slice of the same length with the two elements exchanged, every other
    element where it was, and the same elements overall. *)
Theorem byPath_Swap_exchanges (p : byPath) (i j : nat) :
  (i < sort.Len p)%nat → (j < sort.Len p)%nat →
  ∃ p' : byPath,
    sort.Swap p i j = Some p' ∧
    sort.Len p' = sort.Len p ∧
    p' !! i = p !! j ∧ p' !! j = p !! i ∧
    (∀ k, k ≠ i → k ≠ j → p' !! k = p !! k) ∧
    p' ≡ₚ p.
Proof.
  unfold byPath in *. cbn [sort.Len byPath_Interface]. intros Hi Hj.
  destruct (lookup_lt_is_Some_2 p i Hi) as [x Hx].
  destruct (lookup_lt_is_Some_2 p j Hj) as [y Hy].
  exists (<[j:=x]> (<[i:=y]> p)). split; [| split; [| split; [| split; [| split]]]].
  - rewrite byPath_Swap_eq, Hx. cbn [mbind option_bind]. by rewrite Hy.
  - by rewrite !length_insert.
  - rewrite Hy. destruct (decide (i = j)) as [-> | Hne].
    + rewrite list_lookup_insert_eq by (by rewrite length_insert). congruence.
    + rewrite list_lookup_insert_ne by done. by rewrite list_lookup_insert_eq.
  - rewrite Hx. rewrite list_lookup_insert_eq by (by rewrite length_insert). done.
  - intros k Hki Hkj. by rewrite !list_lookup_insert_ne.
  - by apply swap_Permutation.
Qed.
Lemma byPath_Swap_exchanges_witness :
  ∃ p' : byPath,
    sort.Swap (sortedPackages (H:=forward_impl) sample) 0 2 = Some p' ∧
    path_of <$> p' = ["image/png"; "image"; "bufio"].
Proof.
  destruct (byPath_Swap_exchanges (sortedPackages (H:=forward_impl) sample) 0 2)
    as (p' & Hswap & _); [vm_compute; lia | vm_compute; lia |].
  exists p'. split; [exact Hswap |].
  vm_compute in Hswap. injection Hswap as <-. reflexivity.
Defined.

(** X11: swapping the same two elements again gives the slice back, and
    [Swap(j, i)] is [Swap(i, j)]. *)
Theorem byPath_Swap_involutive (p p' : byPath) (i j : nat) :
  sort.Swap p i j = Some p' →
  sort.Swap p' i j = Some p ∧ sort.Swap p j i = Some p'.
Proof.
  unfold byPath in *. rewrite !byPath_Swap_eq.
  destruct (p !! i) as [x|] eqn:Hx; [| done]. cbn [mbind option_bind].
  destruct (p !! j) as [y|] eqn:Hy; [| done]. cbn [mbind option_bind].
  intros [= <-].
  rewrite (swap_lookup p i j x y i Hx Hy), (swap_lookup p i j x y j Hx Hy).
  rewrite decide_True by done.
  assert ((if decide (i = j) then Some x else
           if decide (i = i) then Some y else p !! i) = Some y) as ->.
  { case_decide; [congruence | by rewrite decide_True]. }
  cbn [mbind option_bind]. split; f_equal.
  - apply list_eq. intros k.
    rewrite (swap_lookup _ i j y x k).
    + rewrite (swap_lookup p i j x y k Hx Hy).
      repeat case_decide; congruence.
    + rewrite (swap_lookup p i j x y i Hx Hy).
      case_decide; [congruence | by rewrite decide_True].
    + rewrite (swap_lookup p i j x y j Hx Hy). by rewrite decide_True.
  - apply list_eq. intros k.
    rewrite (swap_lookup p j i y x k Hy Hx), (swap_lookup p i j x y k Hx Hy).
    repeat case_decide; congruence.
Qed.
Lemma byPath_Swap_involutive_witness :
  sort.Swap (T:=byPath) (reverse (sortedPackages (H:=forward_impl) sample)) 0 2
  = Some (sortedPackages (H:=forward_impl) sample).
Proof.
  apply (byPath_Swap_involutive (sortedPackages (H:=forward_impl) sample)
           (reverse (sortedPackages (H:=forward_impl) sample)) 0 2).
  vm_compute. reflexivity.
Defined.


(** X13: on the elements of a slice, [Less] is what [sort.Sort] requires, a
    strict weak ordering: no element is less than itself, [Less] is
    asymmetric and transitive, so is being not less, and two elements are
    not less than each other exactly when they have the same path. *)
Theorem byPath_Less_strict_weak (p : byPath) (i j k : nat) (x y z : PackageInfo) :
  p !! i = Some x → p !! j = Some y → p !! k = Some z →
  sort.Less p i i = Some false ∧
  (sort.Less p i j = Some true → sort.Less p j i = Some false) ∧
  (sort.Less p i j = Some true → sort.Less p j k = Some true →
   sort.Less p i k = Some true) ∧
  (sort.Less p i j = Some false → sort.Less p j k = Some false →
   sort.Less p i k = Some false) ∧
  (sort.Less p i j = Some false ∧ sort.Less p j i = Some false ↔
   Path (Pkg x) = Path (Pkg y)).
Proof.
  unfold byPath in *. intros Hx Hy Hz. rewrite !byPath_Less_eq, Hx, Hy, Hz.
  cbn [mbind option_bind].
  destruct (StrictWeakOrder_key path_of) as [Hirr Htrans Hinc].
  split; [by rewrite Hirr |].
  split.
  { intros [= H]. f_equal.
    destruct (String.ltb (path_of y) (path_of x)) eqn:E; [| done].
    pose proof (Htrans x y x H E) as C. cbn beta in C, Hirr.
    by rewrite Hirr in C. }
  split; [intros [= H1] [= H2]; f_equal; by eapply Htrans |].
  split; [intros [= H1] [= H2]; f_equal; by eapply Hinc |].
  split.
  - intros [[= H1] [= H2]]. rewrite ltb_negb_leb, negb_false_iff in H1, H2.
    by apply String.leb_antisym.
  - unfold path_of. intros ->. by rewrite ltb_irrefl.
Qed.
Lemma byPath_Less_strict_weak_witness :
  sort.Less (T:=byPath) (sortedPackages (H:=forward_impl) sample) 0 0 = Some false.
Proof.
  destruct (byPath_Less_strict_weak (sortedPackages (H:=forward_impl) sample)
              0 1 2
              {| Pkg := {| Path := "bufio"; Name := "bufio" |};
                 Importable := true |}
              {| Pkg := {| Path := "image"; Name := "image" |};
                 Importable := true |}
              {| Pkg := {| Path := "image/png"; Name := "png" |};
                 Importable := true |}) as [Hirrefl _];
    [vm_compute; reflexivity .. | exact Hirrefl].
Defined.

(* ================================================================== *)
(** * More on the program index *)

(** X14: [scopeFiles] depends on the names of the files of the file set
    only, not on the order they were added in nor on the way [sort.Sort]
    works: two snapshots with the same file names give the same index. *)
Theorem scopeFiles_order_insensitive (G G' : GoImpl) (iprog iprog' : Program) :
  Lawful G → Lawful G' →
  file_names iprog ≡ₚ file_names iprog' →
  scopeFiles (H:=G) iprog = scopeFiles (H:=G') iprog'.
Proof.
  intros HG HG' Hperm. apply (key_le_unique id).
  - rewrite !scopeFiles_Permutation. exact Hperm.
  - apply scopeFiles_key_le.
  - apply scopeFiles_key_le.
  - by intros x y _ _ E.
Qed.
Lemma scopeFiles_order_insensitive_witness :
  scopeFiles (H:=forward_impl) sample
  = scopeFiles (H:=backward_impl) sample_reversed.
Proof.
  apply (scopeFiles_order_insensitive forward_impl backward_impl sample
           sample_reversed forward_impl_Lawful backward_impl_Lawful).
  unfold file_names, sample_reversed. cbn [Fset FileSet_files].
  rewrite fmap_reverse. symmetry. apply reverse_Permutation.
Defined.

(** X15: when the files of the file set are already in ascending order of
    name, [scopeFiles] returns the names in that order. *)
Theorem scopeFiles_keeps_sorted_order (G : GoImpl) (iprog : Program) :
  Lawful G →
  StronglySorted (key_le id) (file_names iprog) →
  scopeFiles iprog = file_names iprog.
Proof.
  intros HG Hsorted. apply (key_le_unique id).
  - apply scopeFiles_Permutation.
  - apply scopeFiles_key_le.
  - exact Hsorted.
  - by intros x y _ _ E.
Qed.
Lemma scopeFiles_keeps_sorted_order_witness :
  scopeFiles (H:=forward_impl) sample_reversed = file_names sample_reversed.
Proof.
  apply (scopeFiles_keeps_sorted_order forward_impl sample_reversed
           forward_impl_Lawful).
  vm_compute. repeat constructor.
Defined.

(** X16: when the paths of the packages are different, [sortedPackages]
    depends on the packages only, not on the keys they are stored under:
    two snapshots with the same packages give the same index. *)
Theorem sortedPackages_ignores_keys (G G' : GoImpl) (iprog iprog' : Program) :
  Lawful G → Lawful G' →
  (map_to_list (AllPackages iprog)).*2 ≡ₚ (map_to_list (AllPackages iprog')).*2 →
  NoDup (package_paths iprog) →
  sortedPackages (H:=G) iprog = sortedPackages (H:=G') iprog'.
Proof.
  intros HG HG' Hperm Hnd. apply (key_le_unique path_of).
  - rewrite !sortedPackages_Permutation. exact Hperm.
  - apply sortedPackages_key_le.
  - apply sortedPackages_key_le.
  - apply NoDup_key_inj. by rewrite sortedPackages_Permutation.
Qed.
Lemma sortedPackages_ignores_keys_witness :
  sortedPackages (H:=forward_impl) sample
  = sortedPackages (H:=backward_impl) sample_rekeyed.
Proof.
  apply (sortedPackages_ignores_keys forward_impl backward_impl sample
           sample_rekeyed forward_impl_Lawful backward_impl_Lawful).
  - vm_compute. etrans; [apply perm_skip, perm_swap |].
    etrans; [apply perm_swap |]. apply perm_skip, perm_swap.
  - apply (bool_decide_unpack _). vm_compute. exact I.
Defined.

(** X17: adding a package with a new path under a new key leaves the
    entries of the index in their order and puts the package between the
    entries of smaller and of greater path. *)
Theorem sortedPackages_insert (G : GoImpl) (iprog : Program) (k : positive)
    (p : PackageInfo) :
  Lawful G →
  AllPackages iprog !! k = None →
  NoDup (package_paths (with_package iprog k p)) →
  ∃ before after,
    sortedPackages iprog = before ++ after ∧
    sortedPackages (with_package iprog k p) = before ++ p :: after ∧
    Forall (λ q, key_lt path_of q p) before ∧
    Forall (λ q, key_lt path_of p q) after.
Proof.
  intros HG Hk Hnd.
  assert (sortedPackages (with_package iprog k p) ≡ₚ p :: sortedPackages iprog)
    as Hperm.
  { rewrite !sortedPackages_Permutation. cbn [AllPackages with_package].
    by rewrite map_to_list_insert. }
  assert (NoDup (path_of <$> sortedPackages (with_package iprog k p))) as Hnd'.
  { by rewrite sortedPackages_Permutation. }
  pose proof (key_le_strict path_of _ (sortedPackages_key_le _) Hnd') as Hstrict.
  assert (p ∈ sortedPackages (with_package iprog k p)) as Hin.
  { rewrite Hperm. left. }
  apply list_elem_of_split in Hin as (before & after & Hsplit).
  rewrite Hsplit in Hperm, Hnd', Hstrict.
  apply StronglySorted_app in Hstrict as (Hcross & Hbefore & Hafter).
  apply StronglySorted_inv in Hafter as [Hafter Hp].
  exists before, after. split; [| split; [done | split; [| done]]].
  - symmetry. apply (key_le_unique path_of).
    + symmetry in Hperm. apply Permutation_cons_app_inv in Hperm. by symmetry.
    + pose proof (sortedPackages_key_le (with_package iprog k p)) as Hs.
      rewrite Hsplit in Hs.
      apply StronglySorted_app in Hs as (Hc & Hb & Ha).
      apply StronglySorted_inv in Ha as [Ha _].
      apply StronglySorted_app. split; [| done].
      intros x1 x2 H1 H2. apply Hc; [done | by right].
    + apply sortedPackages_key_le.
    + apply NoDup_key_inj. rewrite fmap_app, fmap_cons in Hnd'.
      rewrite fmap_app. apply NoDup_app in Hnd' as (H1 & H2 & H3).
      apply NoDup_cons in H3 as [_ H3].
      apply NoDup_app. split; [done | split; [| done]].
      intros x Hx Hx'. apply (H2 x Hx). by right.
  - apply Forall_forall. intros q Hq. apply Hcross; [done | left].
Qed.
Lemma sortedPackages_insert_witness :
  ∃ before after,
    sortedPackages (H:=forward_impl) sample = before ++ after ∧
    sortedPackages (H:=forward_impl)
      (with_package sample 9
         {| Pkg := {| Path := "go/token"; Name := "token" |};
            Importable := true |})
    = before ++ {| Pkg := {| Path := "go/token"; Name := "token" |};
                   Importable := true |} :: after.
Proof.
  destruct (sortedPackages_insert forward_impl sample 9
              {| Pkg := {| Path := "go/token"; Name := "token" |};
                 Importable := true |} forward_impl_Lawful)
    as (before & after & Hold & Hnew & _).
  - vm_compute. reflexivity.
  - apply (bool_decide_unpack _). vm_compute. exact I.
  - by exists before, after.
Defined.

(** X18: a snapshot without packages has an empty package index, and a
    snapshot with one package has that package as its index. *)
Theorem sortedPackages_small (G : GoImpl) (iprog : Program) :
  Lawful G →
  (AllPackages iprog = ∅ → sortedPackages iprog = []) ∧
  (∀ k p, AllPackages iprog = {[k := p]} → sortedPackages iprog = [p]).
Proof.
  intros HG. split.
  - intros Hm. apply Permutation_nil_r.
    by rewrite sortedPackages_Permutation, Hm, map_to_list_empty.
  - intros k p Hm. apply Permutation_singleton_r.
    by rewrite sortedPackages_Permutation, Hm, map_to_list_singleton.
Qed.
Lemma sortedPackages_small_witness :
  sortedPackages (H:=forward_impl) empty_snapshot = [].
Proof.
  by apply (sortedPackages_small forward_impl empty_snapshot forward_impl_Lawful).
Defined.

(* ================================================================== *)
(** * The build tags of [main] *)

Lemma genSplit_nonempty (sep s : string) (skip : nat) (cur : string) :
  strings.genSplit sep s skip cur ≠ [].
Proof.
  revert skip cur.
  induction s as [|c s IH]; intros skip cur; cbn [strings.genSplit]; [done |].
  destruct skip; [| apply IH].
  destruct (String.prefix sep (String c s)); [done | apply IH].
Qed.

Lemma Join_cons (x : string) (rest : list string) (sep : string) :
  rest ≠ [] → strings.Join (x :: rest) sep = x +:+ sep +:+ strings.Join rest sep.
Proof.
  destruct rest as [|y rest]; [done |]. intros _.
  change (x +:+ sep +:+ y +:+ strings.Join_tail rest sep
          = x +:+ sep +:+ strings.Join (y :: rest) sep).
  do 2 f_equal. destruct rest as [|z rest]; [| done].
  apply (string_app_nil_r y).
Qed.

Lemma prefix_comma (c : ascii) (rest : string) :
  String.prefix "," (String c rest) = Ascii.eqb c ",".
Proof.
  change ((match ascii_dec "," c with
           | left _ => String.prefix "" rest
           | right _ => false
           end) = Ascii.eqb c ",").
  destruct (ascii_dec "," c) as [<- | Hne].
  - by destruct rest.
  - symmetry. apply Ascii.eqb_neq. congruence.
Qed.

Lemma genSplit_comma_Join (s cur : string) :
  strings.Join (strings.genSplit "," s 0 cur) "," = cur +:+ s.
Proof.
  revert cur. induction s as [|c s IH]; intros cur.
  - cbn. by rewrite string_app_nil_r.
  - cbn [strings.genSplit]. rewrite prefix_comma.
    destruct (Ascii.eqb c ",") eqn:Hc.
    + apply Ascii.eqb_eq in Hc as ->.
      rewrite Join_cons by apply genSplit_nonempty.
      cbn [String.length Nat.sub]. by rewrite IH.
    + rewrite IH. by rewrite string_app_assoc.
Qed.

Lemma count_byte_app (c : ascii) (s t : string) :
  count_byte c (s +:+ t) = (count_byte c s + count_byte c t)%nat.
Proof.
  induction s as [|b s IH]; [done |].
  change (count_byte c (String b (s +:+ t))
          = (count_byte c (String b s) + count_byte c t)%nat).
  cbn [count_byte]. rewrite IH. lia.
Qed.

Lemma genSplit_comma_fields (s cur : string) :
  count_byte "," cur = 0%nat →
  length (strings.genSplit "," s 0 cur) = S (count_byte "," s) ∧
  Forall (λ tag, count_byte "," tag = 0%nat) (strings.genSplit "," s 0 cur).
Proof.
  revert cur. induction s as [|c s IH]; intros cur Hcur.
  - cbn. split; [done | by repeat constructor].
  - cbn [strings.genSplit count_byte]. rewrite prefix_comma.
    destruct (Ascii.eqb c ",") eqn:Hc.
    + cbn [String.length Nat.sub].
      destruct (IH "" eq_refl) as [Hlen Hall].
      split; [cbn [length]; by rewrite Hlen | by constructor].
    + apply IH. rewrite count_byte_app, Hcur. cbn. by rewrite Hc.
Qed.
(** X19: the build tags [main] loads with, joined by commas, are the value
    of the [-tags] flag: splitting loses nothing. *)
Theorem BuildTags_Join_round_trip (w : World) (fl : Flags) :
  strings.Join (BuildTags (loadSettings w fl)) "," = tags fl.
Proof. cbn. apply (genSplit_comma_Join (tags fl) ""). Qed.
(** X20: there is one build tag more than there are commas in the [-tags]
    flag, so never none, and no build tag contains a comma. *)
Theorem BuildTags_fields (w : World) (fl : Flags) :
  length (BuildTags (loadSettings w fl)) = S (count_byte "," (tags fl)) ∧
  Forall (λ tag, count_byte "," tag = 0%nat) (BuildTags (loadSettings w fl)).
Proof. cbn. by apply genSplit_comma_fields. Qed.
(* ================================================================== *)
(** * More on the command-line renderer *)

Lemma joined_by_spaces_app (l1 l2 : list string) :
  l1 ≠ [] → l2 ≠ [] →
  joined_by_spaces (l1 ++ l2)
  = joined_by_spaces l1 +:+ " " +:+ joined_by_spaces l2.
Proof.
  intros H1 H2. induction l1 as [|a l1 IH]; [done |].
  destruct l1 as [|b l1].
  - destruct l2; done.
  - change (a +:+ " " +:+ joined_by_spaces ((b :: l1) ++ l2)
            = (a +:+ " " +:+ joined_by_spaces (b :: l1)) +:+ " "
                +:+ joined_by_spaces l2).
    rewrite IH by done. by rewrite !string_app_assoc.
Qed.

Lemma cmdLine_joined (mode pos format : string) (scope : list string) :
  cmdLine mode pos format scope
  = ("oracle -pos=" +:+ pos +:+ " -format=" +:+ format +:+ " " +:+ mode +:+ " ")
      +:+ joined_by_spaces scope.
Proof.
  rewrite cmdLine_unfold, Join_joined_by_spaces, !string_app_assoc.
  reflexivity.
Qed.
(** X21: for a scope that is not empty, packages added at its end are
    added at the end of the command line, each after one space. *)
Theorem cmdLine_scope_append (mode pos format : string)
    (scope more : list string) :
  scope ≠ [] → more ≠ [] →
  cmdLine mode pos format (scope ++ more)
  = cmdLine mode pos format scope +:+ " " +:+ joined_by_spaces more.
Proof.
  intros Hscope Hmore. rewrite !cmdLine_joined, joined_by_spaces_app by done.
  by rewrite !string_app_assoc.
Qed.
Lemma cmdLine_scope_append_witness :
  cmdLine "callers" "foo.go:10:2" "json" (["fmt"] ++ ["os"; "io"])
  = cmdLine "callers" "foo.go:10:2" "json" ["fmt"] +:+ " " +:+ "os io".
Proof.
  by apply (cmdLine_scope_append "callers" "foo.go:10:2" "json" ["fmt"]
              ["os"; "io"]).
Defined.

(** X22: [cmdLine] does no quoting: a scope entry that contains a space
    gives the same command line as two entries. *)
Theorem cmdLine_no_quoting (mode pos format : string)
    (before after : list string) (a b : string) :
  cmdLine mode pos format (before ++ [a; b] ++ after)
  = cmdLine mode pos format (before ++ [a +:+ " " +:+ b] ++ after).
Proof.
  rewrite !cmdLine_joined. f_equal.
  assert (∀ rest, joined_by_spaces ([a; b] ++ rest)
                  = joined_by_spaces ([a +:+ " " +:+ b] ++ rest)) as Hab.
  { intros [|c rest]; [done |].
    change (a +:+ " " +:+ b +:+ " " +:+ joined_by_spaces (c :: rest)
            = (a +:+ " " +:+ b) +:+ " " +:+ joined_by_spaces (c :: rest)).
    by rewrite !string_app_assoc. }
  destruct before as [|x before]; [apply Hab |].
  rewrite (joined_by_spaces_app (x :: before) ([a; b] ++ after)) by done.
  rewrite (joined_by_spaces_app (x :: before) ([a +:+ " " +:+ b] ++ after))
    by done.
  by rewrite Hab.
Qed.
Lemma string_length_app (s t : string) :
  String.length (s +:+ t) = (String.length s + String.length t)%nat.
Proof.
  induction s as [|c s IH]; [done |].
  change (S (String.length (s +:+ t)) = S (String.length s + String.length t)).
  by rewrite IH.
Qed.
Lemma joined_by_spaces_length (scope : list string) :
  String.length (joined_by_spaces scope)
  = (sum_list (String.length <$> scope) + (length scope - 1))%nat.
Proof.
  induction scope as [|p [|q scope] IH]; [done | cbn; lia |].
  change (String.length (p +:+ " " +:+ joined_by_spaces (q :: scope))
          = (sum_list (String.length <$> p :: q :: scope)
             + (length (p :: q :: scope) - 1))%nat).
  rewrite !string_length_app, IH. cbn. lia.
Qed.

(** X23: the length of the command line is 23, the bytes of the fixed
    text, plus the lengths of the position, the format, the mode and the
    scope entries, plus one for each scope entry after the first. *)
Theorem cmdLine_length (mode pos format : string) (scope : list string) :
  String.length (cmdLine mode pos format scope)
  = (23 + String.length pos + String.length format + String.length mode
     + sum_list (String.length <$> scope) + (length scope - 1))%nat.
Proof.
  rewrite cmdLine_joined, !string_length_app, joined_by_spaces_length.
  cbn [String.length]. lia.
Qed.
